(** * hystrix-go: the command executor ([hystrix/hystrix.go])

    A model of [Go], [Do] and [tryFallback] as a small interleaving machine.
    One call of [Go] launches two goroutines, called here the worker
    (lines 58-120) and the deadline (lines 122-149); [Do] adds the calling
    goroutine, blocked in its [select] (line 186).  Every statement that
    touches shared memory is one atomic step; a program counter named after
    its source line says where each goroutine stands.  A schedule picks
    which goroutine moves next, and, at a [select] with two ready cases,
    which case is taken. *)

From Stdlib Require Import String ZArith List Bool Arith Lia.
Import ListNotations.
Local Open Scope string_scope.
Local Open Scope list_scope.

(** ** Errors *)

(** Go's [error] interface, as far as this file needs it: the package's own
    [CircuitError] and the plain string errors that [fmt.Errorf] builds and
    that user code returns.  A nil [error] is [None] of [option error]. *)
Inductive error : Type :=
| CircuitError (Message : string)
| errorString (s : string).

Definition Error (e : error) : string :=
  match e with
  | CircuitError Message => ("hystrix: " ++ Message)%string
  | errorString s => s
  end.

Definition ErrMaxConcurrency : error := CircuitError "max concurrency".
Definition ErrCircuitOpen : error := CircuitError "circuit open".
Definition ErrTimeout : error := CircuitError "timeout".

(** [fmt.Errorf("fallback failed with '%v'. run error was '%v'", fallbackErr, err)]:
    the verb [%v] prints an error through its [Error] method. *)
Definition Errorf (fallbackErr err : error) : error :=
  errorString ("fallback failed with '" ++ Error fallbackErr
               ++ "'. run error was '" ++ Error err ++ "'")%string.

(** ** Closures *)

(** What a closure handed to [Go] does when called: it returns an error
    (or nil), possibly after sending on the [done] channel of an enclosing
    [Do] (lines 165 and 175), a send that blocks while that channel is
    full. *)
Inductive action : Type :=
| Ret (err : option error)
| SendDone (k : action).

Definition runFunc : Type := unit -> action.
Definition fallbackFunc : Type := error -> action.

Fixpoint sends (a : action) : nat :=
  match a with
  | Ret _ => 0
  | SendDone k => S (sends k)
  end.

(** ** Program counters *)

(** Inside [tryFallback] (lines 194-223). *)
Inductive tfpc : Type :=
| T198                      (* once.Do(...) *)
| T200                      (* in the once: if fallback == nil *)
| T206 (a : action)         (* fallbackErr := fallback(err), running *)
| T208 (fallbackErr : error)(* ReportEvent("fallback-failure"); errors <- Errorf *)
| T213                      (* ReportEvent("fallback-success"); errors <- nil *)
| T216 (r : option error)   (* leaving once.Do: the once is marked done *)
| T222 (r : option error).  (* return <-errors *)

(** The worker goroutine (lines 58-120). *)
Inductive wpc : Type :=
| W64                       (* if !circuit.AllowRequest() *)
| W65                       (* stopMutex.Lock() *)
| W67                       (* if stop { return } *)
| W70                       (* stop = true *)
| W72                       (* ReportEvent("short-circuit") *)
| W73 (t : tfpc)            (* tryFallback(..., ErrCircuitOpen) *)
| W75 (err : error)         (* errChan <- err *)
| W66                       (* deferred stopMutex.Unlock() of line 66 *)
| W85                       (* ticketMutex.Lock() *)
| W86                       (* select: ticket = <-Tickets, or default *)
| W88                       (* ticketMutex.Unlock(), ticket held *)
| W90                       (* ticketMutex.Unlock(), default case *)
| W91                       (* ReportEvent("rejected") *)
| W92 (t : tfpc)            (* tryFallback(..., ErrMaxConcurrency) *)
| W94 (err : error)         (* errChan <- err *)
| W100                      (* runErr := run(), the call *)
| W100r (a : action)        (* run() running *)
| W103 (runErr : option error)   (* stopMutex.Lock() *)
| W105 (runErr : option error)   (* if stop { return } *)
| W108 (runErr : option error)   (* stop = true; if runErr != nil *)
| W111 (runErr : error)     (* ReportEvent("failure") *)
| W112 (runErr : error) (t : tfpc)  (* tryFallback(..., runErr) *)
| W114 (err : error)        (* errChan <- err; return *)
| W119                      (* ReportEvent("success") *)
| W104                      (* deferred stopMutex.Unlock() of line 104 *)
| W59                       (* deferred finished <- true *)
| W_exit.

(** The deadline goroutine (lines 122-149). *)
Inductive dpc : Type :=
| D132                      (* select: <-finished, or <-timer.C *)
| D135                      (* stopMutex.Lock() *)
| D138                      (* if !stop *)
| D139                      (* stop = true *)
| D141                      (* ReportEvent("timeout") *)
| D143 (t : tfpc)           (* tryFallback(..., ErrTimeout) *)
| D145 (err : error)        (* errChan <- err *)
| D136                      (* deferred stopMutex.Unlock() *)
| D130                      (* deferred timer.Stop() *)
| D124                      (* deferred ticketMutex.Lock() *)
| D125                      (* circuit.executorPool.Return(ticket) *)
| D126                      (* ticketMutex.Unlock() *)
| D_exit.

(** The goroutine that called [Go] or [Do]. *)
Inductive cpc : Type :=
| C_none                    (* called Go and does not wait *)
| C_recv                    (* called Go and receives: <-errChan *)
| C186                      (* in Do: select on done and errChan *)
| C_ret (r : option error). (* holds the value it waited for *)

(** ** State *)

(** The values of the channel [Tickets] and of the events' fields. *)
Definition Ticket : Type := nat.          (* a non-nil *struct{} *)
Definition event : Type := (string * Z)%type. (* eventType, runDuration *)

Record state : Type := {
  (* locals of Go shared by its goroutines *)
  stop : bool;
  stopMutex : bool;                  (* locked *)
  ticket : option Ticket;
  ticketMutex : bool;
  errChan : list error;              (* make(chan error, 1) *)
  finished : list bool;              (* make(chan bool, 1) *)
  onceDone : bool;                   (* fallbackOnce *)
  onceM : bool;
  (* local of Do *)
  done : list unit;                  (* make(chan struct{}, 1) *)
  (* calls received by the collaborators *)
  events : list event;               (* circuit.ReportEvent *)
  returned : list (option Ticket);   (* circuit.executorPool.Return *)
  runCalls : nat;                    (* calls of run *)
  fallbackCalls : list error;        (* arguments of the calls of fallback *)
  (* the goroutines *)
  w_pc : wpc;
  d_pc : dpc;
  c_pc : cpc
}.

(** Assignment to one field. *)
Definition set_stop (v : bool) (s : state) : state :=
  {| stop := v; stopMutex := stopMutex s; ticket := ticket s; ticketMutex := ticketMutex s; errChan := errChan s; finished := finished s; onceDone := onceDone s; onceM := onceM s; done := done s; events := events s; returned := returned s; runCalls := runCalls s; fallbackCalls := fallbackCalls s; w_pc := w_pc s; d_pc := d_pc s; c_pc := c_pc s |}.
Definition set_stopMutex (v : bool) (s : state) : state :=
  {| stop := stop s; stopMutex := v; ticket := ticket s; ticketMutex := ticketMutex s; errChan := errChan s; finished := finished s; onceDone := onceDone s; onceM := onceM s; done := done s; events := events s; returned := returned s; runCalls := runCalls s; fallbackCalls := fallbackCalls s; w_pc := w_pc s; d_pc := d_pc s; c_pc := c_pc s |}.
Definition set_ticket (v : option Ticket) (s : state) : state :=
  {| stop := stop s; stopMutex := stopMutex s; ticket := v; ticketMutex := ticketMutex s; errChan := errChan s; finished := finished s; onceDone := onceDone s; onceM := onceM s; done := done s; events := events s; returned := returned s; runCalls := runCalls s; fallbackCalls := fallbackCalls s; w_pc := w_pc s; d_pc := d_pc s; c_pc := c_pc s |}.
Definition set_ticketMutex (v : bool) (s : state) : state :=
  {| stop := stop s; stopMutex := stopMutex s; ticket := ticket s; ticketMutex := v; errChan := errChan s; finished := finished s; onceDone := onceDone s; onceM := onceM s; done := done s; events := events s; returned := returned s; runCalls := runCalls s; fallbackCalls := fallbackCalls s; w_pc := w_pc s; d_pc := d_pc s; c_pc := c_pc s |}.
Definition set_errChan (v : list error) (s : state) : state :=
  {| stop := stop s; stopMutex := stopMutex s; ticket := ticket s; ticketMutex := ticketMutex s; errChan := v; finished := finished s; onceDone := onceDone s; onceM := onceM s; done := done s; events := events s; returned := returned s; runCalls := runCalls s; fallbackCalls := fallbackCalls s; w_pc := w_pc s; d_pc := d_pc s; c_pc := c_pc s |}.
Definition set_finished (v : list bool) (s : state) : state :=
  {| stop := stop s; stopMutex := stopMutex s; ticket := ticket s; ticketMutex := ticketMutex s; errChan := errChan s; finished := v; onceDone := onceDone s; onceM := onceM s; done := done s; events := events s; returned := returned s; runCalls := runCalls s; fallbackCalls := fallbackCalls s; w_pc := w_pc s; d_pc := d_pc s; c_pc := c_pc s |}.
Definition set_onceDone (v : bool) (s : state) : state :=
  {| stop := stop s; stopMutex := stopMutex s; ticket := ticket s; ticketMutex := ticketMutex s; errChan := errChan s; finished := finished s; onceDone := v; onceM := onceM s; done := done s; events := events s; returned := returned s; runCalls := runCalls s; fallbackCalls := fallbackCalls s; w_pc := w_pc s; d_pc := d_pc s; c_pc := c_pc s |}.
Definition set_onceM (v : bool) (s : state) : state :=
  {| stop := stop s; stopMutex := stopMutex s; ticket := ticket s; ticketMutex := ticketMutex s; errChan := errChan s; finished := finished s; onceDone := onceDone s; onceM := v; done := done s; events := events s; returned := returned s; runCalls := runCalls s; fallbackCalls := fallbackCalls s; w_pc := w_pc s; d_pc := d_pc s; c_pc := c_pc s |}.
Definition set_done (v : list unit) (s : state) : state :=
  {| stop := stop s; stopMutex := stopMutex s; ticket := ticket s; ticketMutex := ticketMutex s; errChan := errChan s; finished := finished s; onceDone := onceDone s; onceM := onceM s; done := v; events := events s; returned := returned s; runCalls := runCalls s; fallbackCalls := fallbackCalls s; w_pc := w_pc s; d_pc := d_pc s; c_pc := c_pc s |}.
Definition set_events (v : list event) (s : state) : state :=
  {| stop := stop s; stopMutex := stopMutex s; ticket := ticket s; ticketMutex := ticketMutex s; errChan := errChan s; finished := finished s; onceDone := onceDone s; onceM := onceM s; done := done s; events := v; returned := returned s; runCalls := runCalls s; fallbackCalls := fallbackCalls s; w_pc := w_pc s; d_pc := d_pc s; c_pc := c_pc s |}.
Definition set_returned (v : list (option Ticket)) (s : state) : state :=
  {| stop := stop s; stopMutex := stopMutex s; ticket := ticket s; ticketMutex := ticketMutex s; errChan := errChan s; finished := finished s; onceDone := onceDone s; onceM := onceM s; done := done s; events := events s; returned := v; runCalls := runCalls s; fallbackCalls := fallbackCalls s; w_pc := w_pc s; d_pc := d_pc s; c_pc := c_pc s |}.
Definition set_runCalls (v : nat) (s : state) : state :=
  {| stop := stop s; stopMutex := stopMutex s; ticket := ticket s; ticketMutex := ticketMutex s; errChan := errChan s; finished := finished s; onceDone := onceDone s; onceM := onceM s; done := done s; events := events s; returned := returned s; runCalls := v; fallbackCalls := fallbackCalls s; w_pc := w_pc s; d_pc := d_pc s; c_pc := c_pc s |}.
Definition set_fallbackCalls (v : list error) (s : state) : state :=
  {| stop := stop s; stopMutex := stopMutex s; ticket := ticket s; ticketMutex := ticketMutex s; errChan := errChan s; finished := finished s; onceDone := onceDone s; onceM := onceM s; done := done s; events := events s; returned := returned s; runCalls := runCalls s; fallbackCalls := v; w_pc := w_pc s; d_pc := d_pc s; c_pc := c_pc s |}.
Definition set_w_pc (v : wpc) (s : state) : state :=
  {| stop := stop s; stopMutex := stopMutex s; ticket := ticket s; ticketMutex := ticketMutex s; errChan := errChan s; finished := finished s; onceDone := onceDone s; onceM := onceM s; done := done s; events := events s; returned := returned s; runCalls := runCalls s; fallbackCalls := fallbackCalls s; w_pc := v; d_pc := d_pc s; c_pc := c_pc s |}.
Definition set_d_pc (v : dpc) (s : state) : state :=
  {| stop := stop s; stopMutex := stopMutex s; ticket := ticket s; ticketMutex := ticketMutex s; errChan := errChan s; finished := finished s; onceDone := onceDone s; onceM := onceM s; done := done s; events := events s; returned := returned s; runCalls := runCalls s; fallbackCalls := fallbackCalls s; w_pc := w_pc s; d_pc := v; c_pc := c_pc s |}.
Definition set_c_pc (v : cpc) (s : state) : state :=
  {| stop := stop s; stopMutex := stopMutex s; ticket := ticket s; ticketMutex := ticketMutex s; errChan := errChan s; finished := finished s; onceDone := onceDone s; onceM := onceM s; done := done s; events := events s; returned := returned s; runCalls := runCalls s; fallbackCalls := fallbackCalls s; w_pc := w_pc s; d_pc := d_pc s; c_pc := v |}.

(** [circuit.ReportEvent(eventType, start, runDuration)]: the circuit's log
    grows by one event; [start] is the same for all events of a call and is
    left out. *)
Definition ReportEvent (eventType : string) (runDuration : Z) (s : state) : state :=
  set_events (events s ++ [(eventType, runDuration)]) s.

(** A send on a channel of capacity 1 blocks while a value is buffered. *)
Definition full {A : Type} (ch : list A) : bool :=
  match ch with
  | [] => false
  | _ :: _ => true
  end.

(** ** One call *)

(** The arguments of one call, and what the rest of the package, which
    [hystrix.go] only calls ([GetCircuit], [CircuitBreaker.AllowRequest], the
    executor pool, the clock), answers to it: parameters of the model. *)
Record command : Type := {
  GetCircuit : option error;   (* err of GetCircuit(name) *)
  AllowRequest : bool;         (* circuit.AllowRequest() *)
  Tickets : option Ticket;     (* the non-blocking receive on executorPool.Tickets *)
  runDuration : Z;             (* time.Now().Sub(runStart) *)
  run : runFunc;
  fallback : option fallbackFunc
}.

(** ** tryFallback *)

Inductive tf_out : Type :=
| TfAt (t : tfpc)
| TfRet (r : option error).

Definition tryFallback (p : command) (dur : Z) (err : error) (t : tfpc) (s : state)
  : option (tf_out * state) :=
  match t with
  | T198 =>
      if onceDone s then Some (TfAt (T222 None), s)          (* !ran: errors <- nil *)
      else if onceM s then None                              (* another caller is in the once *)
      else Some (TfAt T200, set_onceM true s)
  | T200 =>
      match fallback p with
      | None => Some (TfAt (T216 (Some err)), s)             (* errors <- err *)
      | Some f => Some (TfAt (T206 (f err)),
                        set_fallbackCalls (fallbackCalls s ++ [err]) s)
      end
  | T206 (SendDone k) =>
      if full (done s) then None
      else Some (TfAt (T206 k), set_done (done s ++ [tt]) s)
  | T206 (Ret (Some fallbackErr)) => Some (TfAt (T208 fallbackErr), s)
  | T206 (Ret None) => Some (TfAt T213, s)
  | T208 fallbackErr =>
      Some (TfAt (T216 (Some (Errorf fallbackErr err))),
            ReportEvent "fallback-failure" dur s)
  | T213 => Some (TfAt (T216 None), ReportEvent "fallback-success" dur s)
  | T216 r => Some (TfAt (T222 r), set_onceM false (set_onceDone true s))
  | T222 r => Some (TfRet r, s)
  end.

(** [tryFallback] run on its own from [t] to its return, for at most [fuel]
    steps. *)
Fixpoint tryFallback_run (fuel : nat) (p : command) (dur : Z) (err : error)
    (t : tfpc) (s : state) : option (option error * state) :=
  match fuel with
  | O => None
  | S fuel' =>
      match tryFallback p dur err t s with
      | None => None
      | Some (TfRet r, s') => Some (r, s')
      | Some (TfAt t', s') => tryFallback_run fuel' p dur err t' s'
      end
  end.

(** ** The worker goroutine *)

Definition worker_step (p : command) (s : state) : option state :=
  match w_pc s with
  | W64 => Some (set_w_pc (if AllowRequest p then W85 else W65) s)
  | W65 =>
      if stopMutex s then None
      else Some (set_w_pc W67 (set_stopMutex true s))
  | W67 => Some (set_w_pc (if stop s then W66 else W70) s)
  | W70 => Some (set_w_pc W72 (set_stop true s))
  | W72 => Some (set_w_pc (W73 T198) (ReportEvent "short-circuit" 0 s))
  | W73 t =>
      match tryFallback p 0 ErrCircuitOpen t s with
      | None => None
      | Some (TfAt t', s') => Some (set_w_pc (W73 t') s')
      | Some (TfRet (Some err), s') => Some (set_w_pc (W75 err) s')
      | Some (TfRet None, s') => Some (set_w_pc W66 s')
      end
  | W75 err =>
      if full (errChan s) then None
      else Some (set_w_pc W66 (set_errChan (errChan s ++ [err]) s))
  | W66 => Some (set_w_pc W59 (set_stopMutex false s))
  | W85 =>
      if ticketMutex s then None
      else Some (set_w_pc W86 (set_ticketMutex true s))
  | W86 =>
      match Tickets p with
      | Some tk => Some (set_w_pc W88 (set_ticket (Some tk) s))
      | None => Some (set_w_pc W90 s)
      end
  | W88 => Some (set_w_pc W100 (set_ticketMutex false s))
  | W90 => Some (set_w_pc W91 (set_ticketMutex false s))
  | W91 => Some (set_w_pc (W92 T198) (ReportEvent "rejected" 0 s))
  | W92 t =>
      match tryFallback p 0 ErrMaxConcurrency t s with
      | None => None
      | Some (TfAt t', s') => Some (set_w_pc (W92 t') s')
      | Some (TfRet (Some err), s') => Some (set_w_pc (W94 err) s')
      | Some (TfRet None, s') => Some (set_w_pc W59 s')
      end
  | W94 err =>
      if full (errChan s) then None
      else Some (set_w_pc W59 (set_errChan (errChan s ++ [err]) s))
  | W100 => Some (set_w_pc (W100r (run p tt)) (set_runCalls (S (runCalls s)) s))
  | W100r (SendDone k) =>
      if full (done s) then None
      else Some (set_w_pc (W100r k) (set_done (done s ++ [tt]) s))
  | W100r (Ret runErr) => Some (set_w_pc (W103 runErr) s)
  | W103 runErr =>
      if stopMutex s then None
      else Some (set_w_pc (W105 runErr) (set_stopMutex true s))
  | W105 runErr => Some (set_w_pc (if stop s then W104 else W108 runErr) s)
  | W108 runErr =>
      Some (set_w_pc (match runErr with
                      | Some e => W111 e
                      | None => W119
                      end) (set_stop true s))
  | W111 runErr =>
      Some (set_w_pc (W112 runErr T198) (ReportEvent "failure" (runDuration p) s))
  | W112 runErr t =>
      match tryFallback p (runDuration p) runErr t s with
      | None => None
      | Some (TfAt t', s') => Some (set_w_pc (W112 runErr t') s')
      | Some (TfRet (Some err), s') => Some (set_w_pc (W114 err) s')
      | Some (TfRet None, s') => Some (set_w_pc W119 s')
      end
  | W114 err =>
      if full (errChan s) then None
      else Some (set_w_pc W104 (set_errChan (errChan s ++ [err]) s))
  | W119 => Some (set_w_pc W104 (ReportEvent "success" (runDuration p) s))
  | W104 => Some (set_w_pc W59 (set_stopMutex false s))
  | W59 =>
      if full (finished s) then None
      else Some (set_w_pc W_exit (set_finished (finished s ++ [true]) s))
  | W_exit => None
  end.

(** ** The deadline goroutine *)

(** [timer] says which case the [select] of line 132 takes: the timer has
    fired, or a value is taken from [finished]. *)
Definition deadline_step (p : command) (timer : bool) (s : state) : option state :=
  match d_pc s with
  | D132 =>
      if timer then Some (set_d_pc D135 s)
      else match finished s with
           | _ :: rest => Some (set_d_pc D130 (set_finished rest s))
           | [] => None
           end
  | D135 =>
      if stopMutex s then None
      else Some (set_d_pc D138 (set_stopMutex true s))
  | D138 => Some (set_d_pc (if stop s then D136 else D139) s)
  | D139 => Some (set_d_pc D141 (set_stop true s))
  | D141 => Some (set_d_pc (D143 T198) (ReportEvent "timeout" 0 s))
  | D143 t =>
      match tryFallback p 0 ErrTimeout t s with
      | None => None
      | Some (TfAt t', s') => Some (set_d_pc (D143 t') s')
      | Some (TfRet (Some err), s') => Some (set_d_pc (D145 err) s')
      | Some (TfRet None, s') => Some (set_d_pc D136 s')
      end
  | D145 err =>
      if full (errChan s) then None
      else Some (set_d_pc D136 (set_errChan (errChan s ++ [err]) s))
  | D136 => Some (set_d_pc D130 (set_stopMutex false s))
  | D130 => Some (set_d_pc D124 s)
  | D124 =>
      if ticketMutex s then None
      else Some (set_d_pc D125 (set_ticketMutex true s))
  | D125 => Some (set_d_pc D126 (set_returned (returned s ++ [ticket s]) s))
  | D126 => Some (set_d_pc D_exit (set_ticketMutex false s))
  | D_exit => None
  end.

(** ** The caller *)

(** [fromDone] says which case the [select] of line 186 takes. *)
Definition caller_step (fromDone : bool) (s : state) : option state :=
  match c_pc s with
  | C186 =>
      if fromDone then
        match done s with
        | _ :: rest => Some (set_c_pc (C_ret None) (set_done rest s))
        | [] => None
        end
      else
        match errChan s with
        | err :: rest => Some (set_c_pc (C_ret (Some err)) (set_errChan rest s))
        | [] => None
        end
  | C_recv =>
      match errChan s with
      | err :: rest => Some (set_c_pc (C_ret (Some err)) (set_errChan rest s))
      | [] => None
      end
  | C_none => None
  | C_ret _ => None
  end.

(** ** Schedules *)

(** One move of a schedule: the goroutine that makes its next step. *)
Inductive choice : Type :=
| Worker
| Deadline (timer : bool)
| Caller (fromDone : bool).

(** [None]: the chosen goroutine is blocked, or over. *)
Definition step (p : command) (c : choice) (s : state) : option state :=
  match c with
  | Worker => worker_step p s
  | Deadline timer => deadline_step p timer s
  | Caller fromDone => caller_step fromDone s
  end.

(** A schedule run from [s], as long as each chosen goroutine can move. *)
Fixpoint exec (p : command) (sched : list choice) (s : state) : option state :=
  match sched with
  | [] => Some s
  | c :: sched' =>
      match step p c s with
      | Some s' => exec p sched' s'
      | None => None
      end
  end.

(** ** Go and Do *)

(** What the goroutine that made the call does with the result. *)
Inductive caller : Type :=
| Ignores                   (* goes on without waiting *)
| Receives                  (* <-errChan *)
| Selects.                  (* the select of Do, line 186 *)

Definition c_start (w : caller) : cpc :=
  match w with
  | Ignores => C_none
  | Receives => C_recv
  | Selects => C186
  end.

(** Lines 37-57: the locals of [Go] and the lookup of the circuit.  When the
    lookup fails the error is put on [errChan] and no goroutine is
    launched: both start at their exit. *)
Definition Go (p : command) (w : caller) : state :=
  {| stop := false; stopMutex := false; ticket := None; ticketMutex := false;
     errChan := match GetCircuit p with Some err => [err] | None => [] end;
     finished := []; onceDone := false; onceM := false; done := [];
     events := []; returned := []; runCalls := 0; fallbackCalls := [];
     w_pc := match GetCircuit p with Some _ => W_exit | None => W64 end;
     d_pc := match GetCircuit p with Some _ => D_exit | None => D132 end;
     c_pc := c_start w |}.

(** Lines 159-177: the closures [r] and [f] that [Do] hands to [Go], built
    from user code that returns an error or nil. *)
Definition Do_r (run : unit -> option error) : runFunc :=
  fun _ =>
    match run tt with
    | Some err => Ret (Some err)
    | None => SendDone (Ret None)
    end.

Definition Do_f (fallback : error -> option error) : fallbackFunc :=
  fun e =>
    match fallback e with
    | Some err => Ret (Some err)
    | None => SendDone (Ret None)
    end.

(** Closures of a direct caller of [Go], which have no [done] to send on. *)
Definition plain {A : Type} (f : A -> option error) : A -> action :=
  fun x => Ret (f x).

(** The collaborators' answers, without the closures. *)
Record circuit : Type := {
  c_GetCircuit : option error;
  c_AllowRequest : bool;
  c_Tickets : option Ticket;
  c_runDuration : Z
}.

(** A direct call [Go(name, run, fallback)]. *)
Definition Go_command (e : circuit) (run : unit -> option error)
    (fallback : option (error -> option error)) : command :=
  {| GetCircuit := c_GetCircuit e; AllowRequest := c_AllowRequest e;
     Tickets := c_Tickets e; runDuration := c_runDuration e;
     run := plain run; fallback := option_map plain fallback |}.

(** Lines 179-184: [Go(name, r, nil)] when [fallback == nil], else
    [Go(name, r, f)]. *)
Definition Do_command (e : circuit) (run : unit -> option error)
    (fallback : option (error -> option error)) : command :=
  {| GetCircuit := c_GetCircuit e; AllowRequest := c_AllowRequest e;
     Tickets := c_Tickets e; runDuration := c_runDuration e;
     run := Do_r run; fallback := option_map Do_f fallback |}.

(** Lines 186-191: the caller of [Do] waits at the [select]. *)
Definition Do (p : command) : state := Go p Selects.

(** The states a call can be in. *)
Inductive reachable (p : command) (s0 : state) : state -> Prop :=
| reach_init : reachable p s0 s0
| reach_step : forall s c s',
    reachable p s0 s -> step p c s = Some s' -> reachable p s0 s'.

(** Both goroutines of [Go] are over. *)
Definition exited (s : state) : Prop := w_pc s = W_exit /\ d_pc s = D_exit.

(** * Invariants: the statements *)

(** ** Who holds what *)

Definition tf_in_once (t : tfpc) : bool :=
  match t with
  | T200 | T206 _ | T208 _ | T213 | T216 _ => true
  | T198 | T222 _ => false
  end.

Definition w_holds_stop (pc : wpc) : bool :=
  match pc with
  | W67 | W70 | W72 | W73 _ | W75 _ | W66
  | W105 _ | W108 _ | W111 _ | W112 _ _ | W114 _ | W119 | W104 => true
  | _ => false
  end.

Definition d_holds_stop (pc : dpc) : bool :=
  match pc with
  | D138 | D139 | D141 | D143 _ | D145 _ | D136 => true
  | _ => false
  end.

Definition w_holds_ticket (pc : wpc) : bool :=
  match pc with
  | W86 | W88 | W90 => true
  | _ => false
  end.

Definition d_holds_ticket (pc : dpc) : bool :=
  match pc with
  | D125 | D126 => true
  | _ => false
  end.

Definition w_tf (pc : wpc) : option tfpc :=
  match pc with
  | W73 t | W92 t | W112 _ t => Some t
  | _ => None
  end.

Definition d_tf (pc : dpc) : option tfpc :=
  match pc with
  | D143 t => Some t
  | _ => None
  end.

Definition in_once (t : option tfpc) : bool :=
  match t with
  | Some t => tf_in_once t
  | None => false
  end.

(** The locks are held by the goroutine that stands between a [Lock] and
    its [Unlock], and by no other; [finished] is written by the worker's
    last step only. *)
Record locks_inv (s : state) : Prop := {
  li_stop : stopMutex s = w_holds_stop (w_pc s) || d_holds_stop (d_pc s);
  li_stop_excl : w_holds_stop (w_pc s) && d_holds_stop (d_pc s) = false;
  li_ticket : ticketMutex s = w_holds_ticket (w_pc s) || d_holds_ticket (d_pc s);
  li_ticket_excl : w_holds_ticket (w_pc s) && d_holds_ticket (d_pc s) = false;
  li_once : onceM s = in_once (w_tf (w_pc s)) || in_once (d_tf (d_pc s));
  li_once_excl : in_once (w_tf (w_pc s)) && in_once (d_tf (d_pc s)) = false;
  li_once_open : onceM s = true -> onceDone s = false;
  li_finished : w_pc s <> W_exit -> finished s = []
}.

(** ** The resolution guard *)

Fixpoint has_event (eventType : string) (l : list event) : bool :=
  match l with
  | [] => false
  | (k, _) :: l' => String.eqb eventType k || has_event eventType l'
  end.

(** [reported k s]: the circuit has received an event of type [k]. *)
Definition reported (k : string) (s : state) : bool := has_event k (events s).

Definition w_sets_stop (pc : wpc) : bool :=
  match pc with W70 | W108 _ => true | _ => false end.

Definition d_sets_stop (pc : dpc) : bool :=
  match pc with D139 => true | _ => false end.

Definition w_reports_sc (pc : wpc) : bool :=
  match pc with W72 => true | _ => false end.

Definition w_reports_run (pc : wpc) : bool :=
  match pc with W111 _ | W119 => true | _ => false end.

Definition d_reports_timeout (pc : dpc) : bool :=
  match pc with D141 => true | _ => false end.

Definition w_resolves_sc (pc : wpc) : bool :=
  match pc with W73 _ | W75 _ => true | _ => false end.

Definition w_resolves_rejected (pc : wpc) : bool :=
  match pc with W92 _ | W94 _ => true | _ => false end.

Definition w_resolves_failure (pc : wpc) : bool :=
  match pc with W112 _ _ | W114 _ => true | _ => false end.

Definition d_resolves_timeout (pc : dpc) : bool :=
  match pc with D143 _ | D145 _ => true | _ => false end.

(** A guarded resolution is under way or over: its goroutine has set [stop]
    and is about to report, or has reported. *)
Definition sc_active (s : state) : bool :=
  reported "short-circuit" s || w_reports_sc (w_pc s).

Definition run_active (s : state) : bool :=
  reported "failure" s || reported "success" s || w_reports_run (w_pc s).

Definition to_active (s : state) : bool :=
  reported "timeout" s || d_reports_timeout (d_pc s).

(** [stop] is set exactly when one of the three guarded resolutions is
    active, and no two of them ever are. *)
Record stop_inv (s : state) : Prop := {
  si_unset_w : w_sets_stop (w_pc s) = true -> stop s = false;
  si_unset_d : d_sets_stop (d_pc s) = true -> stop s = false;
  si_stop : stop s = sc_active s || run_active s || to_active s;
  si_sc_run : sc_active s && run_active s = false;
  si_sc_to : sc_active s && to_active s = false;
  si_run_to : run_active s && to_active s = false;
  si_w_sc : w_resolves_sc (w_pc s) = true -> reported "short-circuit" s = true;
  si_w_rj : w_resolves_rejected (w_pc s) = true -> reported "rejected" s = true;
  si_w_fail : w_resolves_failure (w_pc s) = true -> reported "failure" s = true;
  si_d_to : d_resolves_timeout (d_pc s) = true -> reported "timeout" s = true
}.

(** ** Which path the worker took *)

Fixpoint result (a : action) : option error :=
  match a with
  | Ret err => err
  | SendDone k => result k
  end.

(** What [tryFallback] hands back when it is the one that runs the once:
    [err] itself without a fallback, nil when the fallback returns nil, the
    composite error otherwise. *)
Definition resolution (p : command) (err : error) : option error :=
  match fallback p with
  | None => Some err
  | Some f =>
      match result (f err) with
      | None => None
      | Some fallbackErr => Some (Errorf fallbackErr err)
      end
  end.

(** The values a program counter carries are the ones the closures gave. *)
Definition tf_ok (p : command) (err : error) (t : tfpc) : Prop :=
  match t with
  | T198 | T200 => True
  | T206 a =>
      option_map (fun f => result (f err)) (fallback p) = Some (result a)
  | T208 fallbackErr =>
      option_map (fun f => result (f err)) (fallback p) = Some (Some fallbackErr)
  | T213 => option_map (fun f => result (f err)) (fallback p) = Some None
  | T216 r => r = resolution p err
  | T222 r => match r with
              | Some e => resolution p err = Some e
              | None => True
              end
  end.

Definition w_ok (p : command) (pc : wpc) : Prop :=
  match pc with
  | W73 t => tf_ok p ErrCircuitOpen t
  | W75 err => resolution p ErrCircuitOpen = Some err
  | W92 t => tf_ok p ErrMaxConcurrency t
  | W94 err => resolution p ErrMaxConcurrency = Some err
  | W100r a => result a = result (run p tt)
  | W103 runErr | W105 runErr | W108 runErr => runErr = result (run p tt)
  | W111 runErr => result (run p tt) = Some runErr
  | W112 runErr t => result (run p tt) = Some runErr /\ tf_ok p runErr t
  | W114 err =>
      match result (run p tt) with
      | Some runErr => resolution p runErr = Some err
      | None => False
      end
  | _ => True
  end.

Definition d_ok (p : command) (pc : dpc) : Prop :=
  match pc with
  | D143 t => tf_ok p ErrTimeout t
  | D145 err => resolution p ErrTimeout = Some err
  | _ => True
  end.

Definition w_on_sc (pc : wpc) : bool :=
  match pc with
  | W65 | W67 | W70 | W72 | W73 _ | W75 _ | W66 => true
  | _ => false
  end.

Definition w_rejecting (pc : wpc) : bool :=
  match pc with
  | W90 | W91 | W92 _ | W94 _ => true
  | _ => false
  end.

Definition w_has_ticket (pc : wpc) : bool :=
  match pc with
  | W88 | W100 | W100r _ | W103 _ | W105 _ | W108 _ | W111 _ | W112 _ _
  | W114 _ | W119 | W104 => true
  | _ => false
  end.

Definition w_admitted (pc : wpc) : bool :=
  match pc with
  | W85 | W86 => true
  | _ => w_rejecting pc || w_has_ticket pc
  end.

Definition w_no_ticket (pc : wpc) : bool :=
  match pc with
  | W64 | W85 | W86 => true
  | _ => w_on_sc pc || w_rejecting pc
  end.

Definition w_after_run (pc : wpc) : bool :=
  match pc with
  | W100r _ | W103 _ | W105 _ | W108 _ | W111 _ | W112 _ _
  | W114 _ | W119 | W104 => true
  | _ => false
  end.

Definition w_before_run (pc : wpc) : bool :=
  match pc with
  | W88 | W100 => true
  | _ => w_no_ticket pc
  end.

Definition w_reports_success (pc : wpc) : bool :=
  match pc with W119 => true | _ => false end.

Record path_inv (p : command) (s : state) : Prop := {
  pi_sc : w_on_sc (w_pc s) = true -> AllowRequest p = false;
  pi_adm : w_admitted (w_pc s) = true -> AllowRequest p = true;
  pi_rej : w_rejecting (w_pc s) = true -> Tickets p = None;
  pi_held : w_has_ticket (w_pc s) = true -> ticket s = Tickets p;
  pi_held' : w_has_ticket (w_pc s) = true -> Tickets p <> None;
  pi_none : w_no_ticket (w_pc s) = true -> ticket s = None;
  pi_ticket : ticket s <> None -> ticket s = Tickets p /\ AllowRequest p = true;
  pi_before : w_before_run (w_pc s) = true -> runCalls s = 0;
  pi_after : w_after_run (w_pc s) = true -> runCalls s = 1;
  pi_calls : runCalls s <= 1;
  pi_ran : runCalls s <> 0 -> ticket s <> None;
  pi_ev_sc : reported "short-circuit" s = true -> AllowRequest p = false;
  pi_ev_rj : reported "rejected" s = true ->
             AllowRequest p = true /\ Tickets p = None;
  pi_ev_fail : reported "failure" s = true ->
               runCalls s = 1 /\ result (run p tt) <> None;
  pi_ev_succ : reported "success" s = true -> runCalls s = 1;
  pi_plain_w : w_reports_success (w_pc s) = true ->
               reported "failure" s = false -> result (run p tt) = None;
  pi_plain_ev : reported "success" s = true ->
                reported "failure" s = false -> result (run p tt) = None;
  pi_w_ok : w_ok p (w_pc s);
  pi_d_ok : d_ok p (d_pc s)
}.

(** ** The once and the result channel *)

Definition to_list {A : Type} (o : option A) : list A :=
  match o with
  | Some a => [a]
  | None => []
  end.

(** The error a goroutine has got back from [tryFallback] and has not yet
    put on [errChan]. *)
Definition pend (t : option tfpc) : list error :=
  match t with
  | Some (T222 r) => to_list r
  | _ => []
  end.

Definition w_pend (pc : wpc) : list error :=
  match pc with
  | W75 err | W94 err | W114 err => [err]
  | _ => pend (w_tf pc)
  end.

Definition d_pend (pc : dpc) : list error :=
  match pc with
  | D145 err => [err]
  | _ => pend (d_tf pc)
  end.

Definition got (pc : cpc) : list error :=
  match pc with
  | C_ret r => to_list r
  | _ => []
  end.

(** Every error that [tryFallback] has returned, wherever it is now: still
    with the goroutine, buffered in [errChan], or received by the caller. *)
Definition outcome (s : state) : list error :=
  w_pend (w_pc s) ++ d_pend (d_pc s) ++ errChan s ++ got (c_pc s).

Definition w_cause (pc : wpc) : option error :=
  match pc with
  | W73 _ => Some ErrCircuitOpen
  | W92 _ => Some ErrMaxConcurrency
  | W112 runErr _ => Some runErr
  | _ => None
  end.

Definition d_cause (pc : dpc) : option error :=
  match pc with
  | D143 _ => Some ErrTimeout
  | _ => None
  end.

Definition calls_of (p : command) (err : error) : list error :=
  match fallback p with
  | Some _ => [err]
  | None => []
  end.

(** The calls of the fallback made so far by a goroutine inside the once. *)
Definition calls_in (p : command) (cause : option error) (t : option tfpc)
  : option (list error) :=
  match cause, t with
  | Some err, Some (T206 _ | T208 _ | T213 | T216 _) => Some (calls_of p err)
  | Some _, Some T200 => Some []
  | _, _ => None
  end.

Definition returning (t : option tfpc) : bool :=
  match t with
  | Some (T222 _) => true
  | _ => false
  end.

Definition in_tf (t : option tfpc) : bool :=
  match t with
  | Some _ => true
  | None => false
  end.

(** [err] is the error of a resolution that has been reported. *)
Definition cause_ok (p : command) (s : state) (err : error) : Prop :=
  (err = ErrCircuitOpen /\ reported "short-circuit" s = true)
  \/ (err = ErrMaxConcurrency /\ reported "rejected" s = true)
  \/ (err = ErrTimeout /\ reported "timeout" s = true)
  \/ (result (run p tt) = Some err /\ reported "failure" s = true).

(** The call has been resolved with [err]: the fallback, when there is
    one, was called once, with [err], and the only error ever handed back
    is the resolution of [err]. *)
Definition resolved (p : command) (s : state) (err : error) : Prop :=
  cause_ok p s err
  /\ outcome s = to_list (resolution p err)
  /\ fallbackCalls s = calls_of p err.

Record once_inv (p : command) (s : state) : Prop := {
  oi_open : onceDone s = false -> outcome s = [];
  oi_calls : onceDone s = false -> onceM s = false -> fallbackCalls s = [];
  oi_w : forall l, calls_in p (w_cause (w_pc s)) (w_tf (w_pc s)) = Some l ->
                   fallbackCalls s = l;
  oi_d : forall l, calls_in p (d_cause (d_pc s)) (d_tf (d_pc s)) = Some l ->
                   fallbackCalls s = l;
  oi_done : onceDone s = true -> exists err, resolved p s err;
  oi_w_ret : returning (w_tf (w_pc s)) = true -> onceDone s = true;
  oi_d_ret : returning (d_tf (d_pc s)) = true -> onceDone s = true;
  oi_w_seen : reported "short-circuit" s || reported "rejected" s
              || reported "failure" s = true ->
              in_tf (w_tf (w_pc s)) = false -> onceDone s = true;
  oi_d_seen : reported "timeout" s = true ->
              in_tf (d_tf (d_pc s)) = false -> onceDone s = true
}.

(** ** Leaving *)

Definition w_stopped (pc : wpc) : bool :=
  match pc with
  | W72 | W73 _ | W75 _ | W66 | W111 _ | W112 _ _ | W114 _ | W119 | W104 => true
  | _ => false
  end.

Definition w_left (pc : wpc) : bool :=
  match pc with
  | W59 | W_exit => true
  | _ => false
  end.

Definition d_stopped (pc : dpc) : bool :=
  match pc with
  | D141 | D143 _ | D145 _ | D136 => true
  | _ => false
  end.

Definition d_returned (pc : dpc) : bool :=
  match pc with
  | D126 | D_exit => true
  | _ => false
  end.

(** The worker leaves with the call resolved or rejected; the deadline
    calls [Return] once, with the value [ticket] has at that moment. *)
Record exit_inv (p : command) (s : state) : Prop := {
  ei_w_stop : w_stopped (w_pc s) = true -> stop s = true;
  ei_w_left : w_left (w_pc s) = true -> stop s || reported "rejected" s = true;
  ei_w_rej : w_left (w_pc s) = true -> AllowRequest p = true ->
             Tickets p = None -> reported "rejected" s = true;
  ei_d_stop : d_stopped (d_pc s) = true -> stop s = true;
  ei_ret0 : d_returned (d_pc s) = false -> returned s = [];
  ei_ret1 : d_returned (d_pc s) = true ->
            match returned s with
            | [r] => r = None \/ r = ticket s
            | _ => False
            end
}.

(** ** What the fallback's outcome leaves in the log *)

Definition at216 (t : option tfpc) : bool :=
  match t with
  | Some (T216 _) => true
  | _ => false
  end.

Definition fallback_event (p : command) (cause : error) : string :=
  match resolution p cause with
  | None => "fallback-success"
  | Some _ => "fallback-failure"
  end.

(** Once the fallback has returned and its outcome has been reported, the
    log holds the event that tells how it went. *)
Definition report_inv (p : command) (s : state) : Prop :=
  forall cause, fallbackCalls s = [cause] ->
    onceDone s || at216 (w_tf (w_pc s)) || at216 (d_tf (d_pc s)) = true ->
    reported (fallback_event p cause) s = true.

(** ** Every execution is finite *)

Definition fb_sends (p : command) (err : error) : nat :=
  match fallback p with
  | Some f => sends (f err)
  | None => 0
  end.

Definition tf_rank (p : command) (err : error) (t : tfpc) : nat :=
  match t with
  | T198 => 6 + fb_sends p err
  | T200 => 5 + fb_sends p err
  | T206 a => 4 + sends a
  | T208 _ | T213 => 3
  | T216 _ => 2
  | T222 _ => 1
  end.

Definition run_rank (p : command) (runErr : option error) : nat :=
  match runErr with
  | Some e => 10 + fb_sends p e
  | None => 3
  end.

(** An upper bound of the steps a goroutine still has to make. *)
Definition w_rank (p : command) (pc : wpc) : nat :=
  match pc with
  | W64 => 16 + fb_sends p ErrCircuitOpen + fb_sends p ErrMaxConcurrency
           + sends (run p tt) + run_rank p (result (run p tt))
  | W65 => 13 + fb_sends p ErrCircuitOpen
  | W67 => 12 + fb_sends p ErrCircuitOpen
  | W70 => 11 + fb_sends p ErrCircuitOpen
  | W72 => 10 + fb_sends p ErrCircuitOpen
  | W73 t => 3 + tf_rank p ErrCircuitOpen t
  | W75 _ => 3
  | W66 => 2
  | W85 => 15 + fb_sends p ErrMaxConcurrency
           + sends (run p tt) + run_rank p (result (run p tt))
  | W86 => 14 + fb_sends p ErrMaxConcurrency
           + sends (run p tt) + run_rank p (result (run p tt))
  | W88 => 6 + sends (run p tt) + run_rank p (result (run p tt))
  | W90 => 10 + fb_sends p ErrMaxConcurrency
  | W91 => 9 + fb_sends p ErrMaxConcurrency
  | W92 t => 2 + tf_rank p ErrMaxConcurrency t
  | W94 _ => 2
  | W100 => 5 + sends (run p tt) + run_rank p (result (run p tt))
  | W100r a => 4 + sends a + run_rank p (result a)
  | W103 runErr => 3 + run_rank p runErr
  | W105 runErr => 2 + run_rank p runErr
  | W108 runErr => 1 + run_rank p runErr
  | W111 runErr => 10 + fb_sends p runErr
  | W112 runErr t => 3 + tf_rank p runErr t
  | W114 _ => 3
  | W119 => 3
  | W104 => 2
  | W59 => 1
  | W_exit => 0
  end.

Definition d_rank (p : command) (pc : dpc) : nat :=
  match pc with
  | D132 => 17 + fb_sends p ErrTimeout
  | D135 => 16 + fb_sends p ErrTimeout
  | D138 => 15 + fb_sends p ErrTimeout
  | D139 => 14 + fb_sends p ErrTimeout
  | D141 => 13 + fb_sends p ErrTimeout
  | D143 t => 6 + tf_rank p ErrTimeout t
  | D145 _ => 6
  | D136 => 5
  | D130 => 4
  | D124 => 3
  | D125 => 2
  | D126 => 1
  | D_exit => 0
  end.

Definition c_rank (pc : cpc) : nat :=
  match pc with
  | C_recv | C186 => 1
  | C_none | C_ret _ => 0
  end.

Definition measure (p : command) (s : state) : nat :=
  w_rank p (w_pc s) + d_rank p (d_pc s) + c_rank (c_pc s).

(** ** The done channel *)

Definition w_sends (pc : wpc) : nat :=
  match pc with
  | W100r a => sends a
  | _ => match w_tf pc with
         | Some (T206 a) => sends a
         | _ => 0
         end
  end.

Definition d_sends (pc : dpc) : nat :=
  match d_tf pc with
  | Some (T206 a) => sends a
  | _ => 0
  end.

Definition taken (pc : cpc) : nat :=
  match pc with
  | C_ret None => 1
  | _ => 0
  end.

(** The sends on [done] of the closures called so far. *)
Definition called_sends (p : command) (s : state) : nat :=
  match runCalls s with
  | O => 0
  | S _ => sends (run p tt)
  end + list_sum (map (fb_sends p) (fallbackCalls s)).

(** Every send of a closure that has been called is still to come, or is
    buffered in [done], or has been taken by the caller. *)
Definition done_inv (p : command) (s : state) : Prop :=
  length (done s) + taken (c_pc s) + w_sends (w_pc s) + d_sends (d_pc s)
  = called_sends p s.

(** ** The invariant of a call *)

Record inv (p : command) (s : state) : Prop := {
  inv_locks : locks_inv s;
  inv_stop : stop_inv s;
  inv_path : path_inv p s;
  inv_once : once_inv p s;
  inv_exit : exit_inv p s;
  inv_done : done_inv p s;
  inv_report : report_inv p s
}.

(** ** No goroutine waits for ever *)

(** What a goroutine is waiting for. *)
Inductive wait : Type :=
| Free                      (* it can make its step *)
| OnStop                    (* stopMutex.Lock() *)
| OnTicket                  (* ticketMutex.Lock() *)
| OnOnce                    (* once.Do, while another caller runs the once *)
| OnDone                    (* done <- struct{}{}, with done full *)
| Over.

Definition tf_wait (t : tfpc) (s : state) : wait :=
  match t with
  | T198 => if onceDone s then Free else if onceM s then OnOnce else Free
  | T206 (SendDone _) => if full (done s) then OnDone else Free
  | _ => Free
  end.

Definition w_wait (s : state) : wait :=
  match w_pc s with
  | W65 | W103 _ => if stopMutex s then OnStop else Free
  | W85 => if ticketMutex s then OnTicket else Free
  | W73 t | W92 t | W112 _ t => tf_wait t s
  | W100r (SendDone _) => if full (done s) then OnDone else Free
  | W_exit => Over
  | _ => Free
  end.

Definition d_wait (s : state) : wait :=
  match d_pc s with
  | D135 => if stopMutex s then OnStop else Free
  | D124 => if ticketMutex s then OnTicket else Free
  | D143 t => tf_wait t s
  | D_exit => Over
  | _ => Free
  end.

(** A send on [done] that finds the channel full is made while the caller
    still stands at its [select]. *)
Definition send_ok (s : state) : Prop :=
  w_wait s = OnDone \/ d_wait s = OnDone -> c_pc s = C186.

(** ** Closures that never wait, closures that signal *)

(** Closures of a direct caller of [Go]: they send nothing. *)
Definition silent (p : command) : Prop :=
  sends (run p tt) = 0
  /\ forall f, fallback p = Some f -> forall err, sends (f err) = 0.

(** Closures built by [Do]: one send on [done], made exactly when the
    user's function returns nil. *)
Definition signals (a : action) : Prop :=
  sends a = match result a with
            | None => 1
            | Some _ => 0
            end.

Definition signalling (p : command) : Prop :=
  signals (run p tt)
  /\ forall f, fallback p = Some f -> forall err, signals (f err).

(** ** Complete executions *)

(** No step can be made: the execution is complete. *)
Definition stuck (p : command) (s : state) : Prop :=
  forall c, step p c s = None.

(** ** The resolution step as the specification has it *)

(** The resolution step in the words of the specification, to be compared
    with [tryFallback]: a later attempt is a no-op; the first one hands back
    the original error when no fallback is provided, nil after reporting
    [fallback-success] when the fallback returns nil, and the composite
    error after reporting [fallback-failure] otherwise. *)
Definition first_resolution (fallback : option (error -> option error))
    (dur : Z) (err : error) (s : state) : option error * state :=
  if onceDone s then (None, s)
  else
    match fallback with
    | None => (Some err, set_onceDone true s)
    | Some f =>
        let s1 := set_fallbackCalls (fallbackCalls s ++ [err]) s in
        match f err with
        | None =>
            (None, set_onceDone true (ReportEvent "fallback-success" dur s1))
        | Some fallbackErr =>
            (Some (Errorf fallbackErr err),
             set_onceDone true (ReportEvent "fallback-failure" dur s1))
        end
    end.

(** * Example calls *)

(** ** Calls used as examples *)

Definition boom : error := errorString "boom".

Definition answers (allow : bool) (tickets : option Ticket) : circuit :=
  {| c_GetCircuit := None; c_AllowRequest := allow; c_Tickets := tickets;
     c_runDuration := 5 |}.

(** The operation fails and the fallback returns nil. *)
Definition failing_call : command :=
  Go_command (answers true (Some 7)) (fun _ => Some boom) (Some (fun _ => None)).

(** The pool is empty; there is no fallback. *)
Definition rejected_call : command :=
  Go_command (answers true None) (fun _ => None) None.

(** The circuit is open; there is no fallback. *)
Definition open_call : command :=
  Go_command (answers false (Some 7)) (fun _ => None) None.

(** The operation succeeds; there is no fallback. *)
Definition good_call : command :=
  Go_command (answers true (Some 7)) (fun _ => None) None.

(** The worker runs to its end, then the deadline is woken by [finished]. *)
Definition worker_first (n : nat) : list choice :=
  repeat Worker n ++ repeat (Deadline false) 5.

(** The timer fires and the deadline runs to its end before the worker
    makes its first step. *)
Definition timer_first (n : nat) : list choice :=
  repeat (Deadline true) 15 ++ repeat Worker n.

(** ** The result channel *)

(** The operation succeeds and the fallback would return nil. *)
Definition quiet_call : command :=
  Go_command (answers true (Some 7)) (fun _ => None) (Some (fun _ => None)).

(** The state a schedule leads to. *)
Definition after (p : command) (sched : list choice) (s0 : state) : state :=
  match exec p sched s0 with
  | Some s => s
  | None => s0
  end.

Definition quiet_end : state :=
  Eval vm_compute in after quiet_call (worker_first 12) (Go quiet_call Receives).

(** ** After the deadline *)

Definition timed_out_end : state :=
  Eval vm_compute in after good_call (timer_first 10) (Go good_call Ignores).

(** ** The ticket goes back *)

(** The circuit is open and the pool is empty. *)
Definition closed_call : command :=
  Go_command (answers false None) (fun _ => None) None.

Definition closed_end : state :=
  Eval vm_compute in after closed_call (worker_first 12) (Go closed_call Ignores).

(** ** Admission *)

Definition open_end : state :=
  Eval vm_compute in after open_call (worker_first 12) (Go open_call Ignores).

Definition rejected_end : state :=
  Eval vm_compute in
    after rejected_call (worker_first 11) (Go rejected_call Ignores).

(** ** Do *)

(** Scenario C: the operation always fails, the fallback always returns
    nil, the call goes through [Do]. *)
Definition do_schedule : list choice :=
  repeat Worker 20 ++ repeat (Deadline false) 5 ++ [Caller true].

Definition do_end : state :=
  Eval vm_compute in
    after (Do_command (answers true (Some 7)) (fun _ => Some boom)
             (Some (fun _ => None)))
      do_schedule
      (Do (Do_command (answers true (Some 7)) (fun _ => Some boom)
             (Some (fun _ => None)))).

(** * Further properties: the statements *)

(** ** The events a call can report *)

(** The event types and durations that [Go] and [tryFallback] pass to
    [ReportEvent]: 0 for the outcomes decided without the operation, the
    measured duration for [failure] and [success], and for the fallback's
    events the duration of the resolution that ran it. *)
Definition call_events (p : command) : list event :=
  [("short-circuit", 0%Z); ("rejected", 0%Z); ("timeout", 0%Z);
   ("failure", runDuration p); ("success", runDuration p);
   ("fallback-failure", 0%Z); ("fallback-failure", runDuration p);
   ("fallback-success", 0%Z); ("fallback-success", runDuration p)].

(** ** The ticket of a call that does not time out *)

Definition w_early (pc : wpc) : bool :=
  match pc with
  | W64 | W85 | W86 => true
  | _ => false
  end.

Definition d_past (pc : dpc) : bool :=
  match pc with
  | D136 | D130 | D124 | D125 | D126 | D_exit => true
  | _ => false
  end.

(** The deadline gets past its resolution, while the worker has not yet
    acquired, only by reporting a timeout; hence a [Return] made without a
    timeout carries the final value of [ticket]. *)
Record return_inv (s : state) : Prop := {
  ri_first : w_pc s = W64 -> reported "short-circuit" s = false;
  ri_early : w_early (w_pc s) = true -> d_past (d_pc s) = true ->
             reported "timeout" s = true;
  ri_ticket : d_returned (d_pc s) = true -> reported "timeout" s = false ->
              returned s = [ticket s]
}.

(** ** The fallback's events *)

(** A fallback event in the log tells how the one call of the fallback
    went. *)
Record fallback_inv (p : command) (s : state) : Prop := {
  fi_success : reported "fallback-success" s = true ->
               exists cause, fallbackCalls s = [cause]
                             /\ resolution p cause = None;
  fi_failure : reported "fallback-failure" s = true ->
               exists cause, fallbackCalls s = [cause]
                             /\ resolution p cause <> None
}.

(** ** Outcomes and places *)

(** The operation's success is the only outcome that has been reported. *)
Definition plain_success (s : state) : Prop :=
  reported "success" s = true /\ reported "failure" s = false.

(** The worker has reached the call of [tryFallback] of line 92, or has
    left by the [return] of line 96. *)
Definition w_past_92 (pc : wpc) : bool :=
  match pc with
  | W92 _ | W94 _ | W59 | W_exit => true
  | _ => false
  end.

(** ** More example calls *)

Definition failing_end : state :=
  Eval vm_compute in after failing_call (worker_first 19) (Go failing_call Ignores).

(** The operation fails and so does the fallback. *)
Definition hopeless_call : command :=
  Go_command (answers true (Some 7)) (fun _ => Some boom)
    (Some (fun _ => Some (errorString "no luck"))).

Definition hopeless_end : state :=
  Eval vm_compute in
    after hopeless_call (worker_first 19) (Go hopeless_call Ignores).

(** The lookup of the circuit fails; the call goes through [Do]. *)
Definition lost_call : command :=
  Do_command {| c_GetCircuit := Some boom; c_AllowRequest := true;
                c_Tickets := Some 7; c_runDuration := 5 |}
    (fun _ => None) None.

Definition lost_end : state :=
  Eval vm_compute in after lost_call [Caller false] (Do lost_call).

(** The operation fails; the fallback returns nil for an operation's own
    error and fails for the package's errors. *)
Definition picky_call : command :=
  Go_command (answers true (Some 7)) (fun _ => Some boom)
    (Some (fun e => match e with
                    | errorString _ => None
                    | CircuitError _ => Some (errorString "no luck")
                    end)).

Definition picky_end : state :=
  Eval vm_compute in after picky_call (worker_first 19) (Go picky_call Receives).

Definition heard_end : state :=
  Eval vm_compute in
    after hopeless_call (worker_first 19 ++ [Caller false])
      (Go hopeless_call Receives).

(** The call of [picky_call] when the timer fires while the operation
    runs: the worker stands at the return of [run], which is about to hand
    back its error, and the deadline has just reported [timeout]. *)
Definition timeout_before_failure : state :=
  Eval vm_compute in
    after picky_call (repeat Worker 5 ++ repeat (Deadline true) 5)
      (Go picky_call Ignores).

(** The deadline resolves the call, then the operation returns its error. *)
Definition late_failure_rest : list choice :=
  repeat (Deadline true) 12 ++ repeat Worker 5.

Definition late_failure_end : state :=
  Eval vm_compute in after picky_call late_failure_rest timeout_before_failure.

(** The worker about to take the ticket, about to set [stop], and the
    deadline about to call [Return]. *)
Definition at_acquire : state :=
  Eval vm_compute in after failing_call (repeat Worker 2) (Go failing_call Ignores).

Definition at_set_stop : state :=
  Eval vm_compute in after failing_call (repeat Worker 8) (Go failing_call Ignores).

Definition at_return : state :=
  Eval vm_compute in
    after failing_call (repeat Worker 19 ++ repeat (Deadline false) 3)
      (Go failing_call Ignores).

(** * Invariants: the proofs *)

(** ** Who holds what *)

(** Case analysis on one step: [H : step p c s = Some s'] is split into the
    transitions it can be, each with [s'] as an update of [s]. *)
Ltac split_match H :=
  match type of H with
  | context [match ?x with _ => _ end] =>
      lazymatch x with
      | context [match _ with _ => _ end] => fail
      | _ => first [ is_var x; destruct x | destruct x eqn:? ]
      end
  end.

Ltac step_cases H :=
  unfold step, worker_step, deadline_step, caller_step, tryFallback in H;
  repeat (split_match H; try discriminate H);
  injection H as H; subst.

Lemma locks_inv_Go (p : command) (w : caller) : locks_inv (Go p w).
Proof.
  unfold Go; destruct (GetCircuit p); constructor; simpl; auto; discriminate.
Qed.

(** After [step_cases]: the program counters read in the hypotheses are
    replaced by their values and the tests left in the goal are split. *)
Ltac pc_rewrite :=
  simpl in *;
  repeat match goal with
         | E : w_pc _ = _ |- _ => rewrite E in *; clear E
         | E : d_pc _ = _ |- _ => rewrite E in *; clear E
         | E : c_pc _ = _ |- _ => rewrite E in *; clear E
         | E : errChan _ = _ |- _ => rewrite E in *; clear E
         | E : done _ = _ |- _ => rewrite E in *; clear E
         | E : finished _ = _ |- _ => rewrite E in *; clear E
         end;
  simpl in *;
  repeat match goal with
         | |- context [if ?b then _ else _] => destruct b eqn:?
         | |- context [match ?b with Some _ => _ | None => _ end] => destruct b eqn:?
         end;
  simpl in *.

Ltac bool_cases :=
  repeat match goal with
         | H : context [w_holds_stop (w_pc ?s)] |- _ => destruct (w_holds_stop (w_pc s))
         | H : context [d_holds_stop (d_pc ?s)] |- _ => destruct (d_holds_stop (d_pc s))
         | H : context [w_holds_ticket (w_pc ?s)] |- _ => destruct (w_holds_ticket (w_pc s))
         | H : context [d_holds_ticket (d_pc ?s)] |- _ => destruct (d_holds_ticket (d_pc s))
         | H : context [in_once (w_tf (w_pc ?s))] |- _ => destruct (in_once (w_tf (w_pc s)))
         | H : context [in_once (d_tf (d_pc ?s))] |- _ => destruct (in_once (d_tf (d_pc s)))
         end;
  simpl in *.

Lemma locks_inv_step (p : command) (c : choice) (s s' : state) :
  locks_inv s -> step p c s = Some s' -> locks_inv s'.
Proof.
  intros [A1 A2 A3 A4 A5 A6 A7 A8] H.
  step_cases H.
  all: constructor; pc_rewrite.
  all: try congruence.
  all: try solve [intuition congruence].
  all: bool_cases; intuition congruence.
Qed.

(** ** The resolution guard *)

Lemma has_event_app (k : string) (l l' : list event) :
  has_event k (l ++ l') = has_event k l || has_event k l'.
Proof.
  induction l as [|[k' d] l IH]; simpl; [reflexivity|].
  rewrite IH, orb_assoc; reflexivity.
Qed.

Lemma stop_inv_Go (p : command) (w : caller) : stop_inv (Go p w).
Proof.
  unfold Go; destruct (GetCircuit p).
  all: constructor; simpl; try reflexivity; congruence.
Qed.

(** Hypotheses whose premise has been decided by the program counters. *)
Ltac premises :=
  repeat match goal with
         | H : ?x = ?x -> _ |- _ => specialize (H eq_refl)
         | H : false = true -> _ |- _ => clear H
         | H : true = false -> _ |- _ => clear H
         | H : ?x = ?x |- _ => clear H
         end.

(** The event log after a step, in terms of the log before it. *)
Ltac events_norm :=
  unfold reported in *; simpl in *;
  rewrite ?has_event_app in *; simpl in *;
  rewrite ?orb_false_r, ?orb_true_r in *.

(** What is left is propositional in a few boolean atoms. *)
Ltac bool_atoms :=
  repeat match goal with
         | H : context [has_event ?k (events ?s)] |- _ => destruct (has_event k (events s))
         | |- context [has_event ?k (events ?s)] => destruct (has_event k (events s))
         | H : context [stop ?s] |- _ => destruct (stop s)
         | |- context [stop ?s] => destruct (stop s)
         | H : context [onceDone ?s] |- _ => destruct (onceDone s)
         | |- context [onceDone ?s] => destruct (onceDone s)
         end;
  simpl in *; premises.

Ltac other_pc :=
  match goal with
  | H : context [d_pc ?s] |- _ => destruct (d_pc s)
  | |- context [d_pc ?s] => destruct (d_pc s)
  | H : context [w_pc ?s] |- _ => destruct (w_pc s)
  | |- context [w_pc ?s] => destruct (w_pc s)
  end;
  simpl in *; premises.

Ltac finish :=
  simpl in *; premises;
  first [ assumption | congruence
        | solve [bool_atoms; congruence]
        | solve [other_pc; try congruence; bool_atoms; congruence] ].

Lemma stop_inv_step (p : command) (c : choice) (s s' : state) :
  locks_inv s -> stop_inv s -> step p c s = Some s' -> stop_inv s'.
Proof.
  intros L [B1 B2 B3 B4 B5 B6 B7 B8 B9 B10] H.
  pose proof (li_stop_excl _ L) as X. clear L.
  step_cases H.
  all: constructor; unfold sc_active, run_active, to_active in *; pc_rewrite.
  all: try assumption.
  all: events_norm.
  all: finish.
Qed.

(** ** Which path the worker took *)

Lemma path_inv_Go (p : command) (w : caller) : path_inv p (Go p w).
Proof.
  unfold Go; destruct (GetCircuit p).
  all: constructor; simpl; auto; try congruence; try discriminate.
Qed.

Ltac fallback_cases :=
  unfold resolution in *;
  repeat match goal with
         | H : _ /\ _ |- _ => destruct H
         | |- _ /\ _ => split
         end;
  try assumption;
  match goal with
  | H : fallback ?p = _ |- _ => rewrite H in *
  | |- context [fallback ?p] => destruct (fallback p)
  end;
  simpl in *;
  repeat match goal with
         | H : Some _ = Some _ |- _ => injection H as H
         end;
  try congruence;
  repeat match goal with
         | H : result _ = _ |- _ => rewrite H in *
         | H : _ = result _ |- _ => rewrite <- H in *
         end;
  congruence.

Lemma path_inv_step (p : command) (c : choice) (s s' : state) :
  stop_inv s -> path_inv p s -> step p c s = Some s' -> path_inv p s'.
Proof.
  intros S [] H.
  pose proof (si_w_fail _ S) as S1; clear S.
  step_cases H.
  all: constructor; pc_rewrite.
  all: try assumption.
  all: events_norm.
  all: premises; try assumption; try congruence.
  all: try solve [intuition (try congruence; try lia)].
  all: fallback_cases.
Qed.

(** ** The once and the result channel *)

(** Boolean facts that have become known are put to use everywhere. *)
Ltac known :=
  repeat (premises;
          match goal with
          | H : ?t = true |- _ =>
              lazymatch t with
              | true => fail
              | false => fail
              | _ => rewrite H in *; clear H
              end
          | H : ?t = false |- _ =>
              lazymatch t with
              | true => fail
              | false => fail
              | _ => rewrite H in *; clear H
              end
          end;
          rewrite ?orb_true_r, ?orb_false_r, ?andb_true_r, ?andb_false_r in *;
          simpl in *);
  rewrite ?orb_true_r, ?orb_false_r, ?andb_true_r, ?andb_false_r in *;
  simpl in *; premises.

(** A list that is [to_list o] stays so when its elements are moved around. *)
Lemma to_list_move {A : Type} (l l' : list A) (o : option A) :
  l = to_list o -> length l' = length l -> incl l' l -> l' = to_list o.
Proof.
  intros -> Hlen Hincl.
  destruct o as [a|]; simpl in *.
  - destruct l' as [|b [|b' l']]; simpl in *; try discriminate.
    destruct (Hincl b (or_introl eq_refl)) as [->|[]]; reflexivity.
  - destruct l'; simpl in *; [reflexivity | discriminate].
Qed.

Ltac list_arith :=
  repeat (rewrite ?length_app in *; simpl in * ); lia.

Ltac move_outcome H :=
  apply (to_list_move _ _ _ H);
  [ list_arith
  | intros ?x; repeat (rewrite ?in_app_iff; simpl); tauto ].

Ltac list_absurd :=
  match goal with
  | H : _ = [] |- _ => solve [apply (f_equal (@length _)) in H; list_arith]
  end.

Lemma calls_in_once (p : command) (cause : option error) (t : option tfpc)
    (l : list error) :
  calls_in p cause t = Some l -> in_once t = true.
Proof.
  destruct cause, t as [[]|]; simpl; congruence.
Qed.

Ltac use_calls :=
  repeat match goal with
         | H : forall l, Some ?x = Some l -> _ |- _ => specialize (H _ eq_refl)
         end.

Lemma once_inv_step (p : command) (c : choice) (s s' : state) :
  locks_inv s -> stop_inv s -> path_inv p s -> once_inv p s ->
  step p c s = Some s' -> once_inv p s'.
Proof.
  intros L S P [] H.
  pose proof (li_once _ L) as L1; pose proof (li_once_excl _ L) as L2;
    pose proof (li_once_open _ L) as L3; clear L.
  pose proof (si_w_sc _ S) as S1; pose proof (si_w_rj _ S) as S2;
    pose proof (si_w_fail _ S) as S3; pose proof (si_d_to _ S) as S4; clear S.
  pose proof (pi_w_ok _ _ P) as P1; pose proof (pi_d_ok _ _ P) as P2; clear P.
  step_cases H.
  all: constructor; unfold resolved, cause_ok, outcome in *; pc_rewrite.
  all: try assumption.
  all: events_norm.
  all: premises; try assumption; try congruence.
  all: known; try assumption; try congruence.
  all: try solve [intros Hd; match goal with H : _ -> exists _, _ |- _ => destruct (H Hd) as (e0 & Hc & Ho & Hf) end; exists e0; repeat split; assumption].
  all: try solve [intros; list_absurd].
  all: try solve [intros Hd; match goal with H : _ -> exists _, _ |- _ => destruct (H Hd) as (e0 & Hc & Ho & Hf) end;
                  exists e0; split; [tauto | split; [first [assumption | move_outcome Ho] | assumption]]].
  all: try solve [match goal with H : exists _, _ |- _ => destruct H as (e0 & Hc & Ho & Hf) end;
                  intros _; exists e0; split; [tauto | split; [first [assumption | move_outcome Ho] | assumption]]].
  all: try solve [intros Hd; specialize (oi_open0 Hd); list_absurd].
  all: try solve [intros l Hl; apply calls_in_once in Hl; congruence].
  all: try solve [use_calls; unfold calls_of; rewrite Heqo; intros l Hl;
                  injection Hl as <-; rewrite oi_w0 || rewrite oi_d0; reflexivity].
  all: repeat match goal with H : _ /\ _ |- _ => destruct H end.
  all: repeat match goal with H : _ /\ _ |- _ => destruct H end.
  all: match goal with
       | P : ?r = resolution ?p ?c |- _ =>
           intros _; exists c; split;
           [ tauto
           | split;
             [ rewrite <- P;
               repeat match goal with
                      | H : _ ++ _ = [] |- _ => apply app_eq_nil in H; destruct H
                      end;
               repeat match goal with
                      | H : _ = [] |- _ => rewrite H
                      end;
               rewrite ?app_nil_r; reflexivity
             | use_calls; assumption ] ]
       end.
Qed.

Lemma once_inv_Go (p : command) (w : caller) :
  GetCircuit p = None -> once_inv p (Go p w).
Proof.
  intros E; unfold Go; rewrite E.
  constructor; unfold outcome, reported; simpl; try congruence.
  all: destruct w; intros; reflexivity.
Qed.

(** ** Leaving *)

Lemma exit_inv_Go (p : command) (w : caller) :
  GetCircuit p = None -> exit_inv p (Go p w).
Proof.
  intros E; unfold Go; rewrite E.
  constructor; simpl; congruence.
Qed.

Lemma exit_inv_step (p : command) (c : choice) (s s' : state) :
  stop_inv s -> path_inv p s -> exit_inv p s -> step p c s = Some s' ->
  exit_inv p s'.
Proof.
  intros S P [] H.
  pose proof (pi_none _ _ P) as P1; pose proof (pi_sc _ _ P) as P2;
    pose proof (pi_held' _ _ P) as P3; clear P.
  pose proof (si_w_rj _ S) as S1; clear S.
  step_cases H.
  all: constructor; pc_rewrite.
  all: try assumption.
  all: events_norm.
  all: premises; try assumption; try congruence.
  all: known; try assumption; try congruence.
  all: try solve [intros Hd; specialize (ei_ret3 Hd); rewrite P1 in *;
                  destruct (returned s) as [|r [|]]; tauto].
  all: intros _; rewrite ei_ret2; simpl; right; reflexivity.
Qed.

(** ** What the fallback's outcome leaves in the log *)

Lemma report_inv_Go (p : command) (w : caller) : report_inv p (Go p w).
Proof. unfold report_inv, Go; simpl; discriminate. Qed.

Lemma at216_in_once (t : option tfpc) : at216 t = true -> in_once t = true.
Proof. destruct t as [[]|]; simpl; congruence. Qed.

Lemma report_inv_step (p : command) (c : choice) (s s' : state) :
  locks_inv s -> path_inv p s -> once_inv p s -> report_inv p s ->
  step p c s = Some s' -> report_inv p s'.
Proof.
  intros L P O R H.
  pose proof (li_once _ L) as L1; pose proof (li_once_excl _ L) as L2;
    pose proof (li_once_open _ L) as L3; clear L.
  pose proof (pi_w_ok _ _ P) as P1; pose proof (pi_d_ok _ _ P) as P2; clear P.
  pose proof (oi_w _ _ O) as O1; pose proof (oi_d _ _ O) as O2;
    pose proof (oi_calls _ _ O) as O3; clear O.
  unfold report_inv in *.
  step_cases H.
  all: pc_rewrite.
  all: try assumption.
  all: intros cause Hc Hd; events_norm.
  (* the log only grows *)
  all: try solve [rewrite ?has_event_app; try (apply orb_true_iff; left);
                  apply R;
                  [ assumption
                  | first [ reflexivity | assumption
                          | rewrite ?orb_true_r; simpl; first [reflexivity | assumption] ] ]].
  (* the call of the fallback: nothing is reported yet *)
  all: try solve [exfalso; rewrite ?andb_true_r in *;
                  repeat match goal with
                         | H : ?a = true, H' : ?a = true -> _ |- _ => specialize (H' H)
                         end;
                  repeat match goal with
                         | H : onceDone _ = _ |- _ => rewrite H in *; clear H
                         end;
                  simpl in *;
                  match goal with
                  | H : at216 _ = true |- _ => apply at216_in_once in H; congruence
                  end].
  all: try solve [use_calls; congruence].
  (* the report *)
  all: use_calls; rewrite ?has_event_app; apply orb_true_iff; right.
  all: unfold fallback_event, resolution, calls_of in *.
  all: destruct (fallback p); simpl in *; try discriminate.
  all: repeat match goal with
              | H : _ /\ _ |- _ => destruct H
              | H : Some _ = Some _ |- _ => injection H as H
              end.
  all: try congruence.
  all: match goal with
       | H1 : fallbackCalls ?s = [?a], H2 : fallbackCalls ?s = [?b] |- _ =>
           rewrite H1 in H2; injection H2 as <-
       end.
  all: match goal with H : result _ = _ |- _ => rewrite H end; reflexivity.
Qed.

(** ** Every execution is finite *)

Lemma step_measure (p : command) (c : choice) (s s' : state) :
  step p c s = Some s' -> measure p s' < measure p s.
Proof.
  intros H; unfold measure.
  step_cases H.
  all: pc_rewrite.
  all: unfold run_rank, tf_rank, fb_sends in *.
  all: repeat match goal with
              | H : fallback _ = _ |- _ => rewrite H
              | H : result _ = _ |- _ => rewrite H
              end.
  all: simpl; try lia.
  all: repeat match goal with
              | |- context [match ?x with _ => _ end] => destruct x
              end; lia.
Qed.

Lemma exec_measure (p : command) (sched : list choice) (s s' : state) :
  exec p sched s = Some s' -> length sched + measure p s' <= measure p s.
Proof.
  revert s; induction sched as [|c sched IH]; simpl; intros s H.
  - injection H as <-; lia.
  - destruct (step p c s) as [s1|] eqn:E; [|discriminate].
    apply step_measure in E; apply IH in H; lia.
Qed.

(** ** The done channel *)

Lemma done_inv_Go (p : command) (w : caller) : done_inv p (Go p w).
Proof.
  unfold done_inv, called_sends, Go; destruct (GetCircuit p), w; reflexivity.
Qed.

Lemma done_inv_step (p : command) (c : choice) (s s' : state) :
  path_inv p s -> done_inv p s -> step p c s = Some s' -> done_inv p s'.
Proof.
  intros P D H.
  pose proof (pi_before _ _ P) as P1; clear P.
  unfold done_inv, called_sends in *.
  step_cases H.
  all: pc_rewrite; premises.
  all: try assumption.
  all: repeat rewrite ?map_app, ?list_sum_app, ?length_app in *; simpl in *.
  all: unfold fb_sends in *.
  all: repeat match goal with
              | H : fallback _ = _ |- _ => rewrite H in *
              | H : runCalls _ = _ |- _ => rewrite H in *
              end.
  all: unfold d_sends, w_sends in *; simpl in *; lia.
Qed.

(** ** The invariant of a call *)

Lemma inv_Go (p : command) (w : caller) :
  GetCircuit p = None -> inv p (Go p w).
Proof.
  intros E; constructor.
  - apply locks_inv_Go.
  - apply stop_inv_Go.
  - apply path_inv_Go.
  - apply once_inv_Go, E.
  - apply (exit_inv_Go p w E).
  - apply done_inv_Go.
  - apply report_inv_Go.
Qed.

Lemma inv_step (p : command) (c : choice) (s s' : state) :
  inv p s -> step p c s = Some s' -> inv p s'.
Proof.
  intros [L S P O X D R] H; constructor.
  - exact (locks_inv_step p c s s' L H).
  - exact (stop_inv_step p c s s' L S H).
  - exact (path_inv_step p c s s' S P H).
  - exact (once_inv_step p c s s' L S P O H).
  - exact (exit_inv_step p c s s' S P X H).
  - exact (done_inv_step p c s s' P D H).
  - exact (report_inv_step p c s s' L P O R H).
Qed.

Lemma inv_reachable (p : command) (w : caller) (s : state) :
  GetCircuit p = None -> reachable p (Go p w) s -> inv p s.
Proof.
  intros E R; induction R as [|s c s' R IH H].
  - apply inv_Go, E.
  - exact (inv_step p c s s' IH H).
Qed.

Lemma exec_reachable (p : command) (sched : list choice) (s0 s : state) :
  exec p sched s0 = Some s -> reachable p s0 s.
Proof.
  enough (G : forall s1, reachable p s0 s1 -> exec p sched s1 = Some s ->
                         reachable p s0 s) by (apply G; constructor).
  induction sched as [|c sched IH]; simpl; intros s1 R H.
  - injection H as <-; exact R.
  - destruct (step p c s1) as [s2|] eqn:E; [|discriminate].
    exact (IH s2 (reach_step p s0 s1 c s2 R E) H).
Qed.

Lemma reachable_exec (p : command) (s0 s : state) :
  reachable p s0 s -> exists sched, exec p sched s0 = Some s.
Proof.
  induction 1 as [|s c s' R [sched IH] H].
  - exists []; reflexivity.
  - exists (sched ++ [c]).
    revert IH; generalize s0; induction sched as [|c' sched IHs]; simpl; intros s1 IH.
    + injection IH as ->; rewrite H; reflexivity.
    + destruct (step p c' s1); [apply IHs, IH | discriminate].
Qed.

(** ** No goroutine waits for ever *)

Lemma outcome_length (p : command) (s : state) :
  once_inv p s -> length (outcome s) <= 1.
Proof.
  intros O; destruct (onceDone s) eqn:E.
  - destruct (oi_done _ _ O E) as (err & _ & -> & _).
    destruct (resolution p err); simpl; lia.
  - rewrite (oi_open _ _ O E); simpl; lia.
Qed.

Lemma worker_free (p : command) (s : state) :
  inv p s -> w_wait s = Free -> exists s', step p Worker s = Some s'.
Proof.
  intros I W.
  pose proof (outcome_length p s (inv_once _ _ I)) as O.
  pose proof (li_finished _ (inv_locks _ _ I)) as F.
  unfold w_wait, tf_wait, outcome in *; unfold step, worker_step, tryFallback.
  destruct (w_pc s) as [| | | | |t|e| | | | | | |t|e| |a|r|r|r|e|e t|e| | | |] eqn:E;
    simpl in *.
  all: try destruct t as [| |a|e'| |r|r]; simpl in *.
  all: try destruct a as [r|k]; simpl in *.
  all: try destruct r; simpl in *.
  all: repeat match goal with
              | H : context [if ?b then _ else _] |- _ => destruct b eqn:?; try discriminate H
              end.
  all: try solve [eexists; reflexivity].
  all: try solve [destruct (fallback p); eexists; reflexivity].
  all: try solve [destruct (Tickets p); eexists; reflexivity].
  all: try discriminate.
  all: try solve [destruct (errChan s); simpl in *;
                  [eexists; reflexivity | exfalso; list_arith]].
  all: rewrite F by discriminate; eexists; reflexivity.
Qed.

Lemma deadline_free (p : command) (s : state) :
  inv p s -> d_wait s = Free -> exists s', step p (Deadline true) s = Some s'.
Proof.
  intros I W.
  pose proof (outcome_length p s (inv_once _ _ I)) as O.
  unfold d_wait, tf_wait, outcome in *; unfold step, deadline_step, tryFallback.
  destruct (d_pc s) as [| | | | |t|e| | | | | |] eqn:E; simpl in *.
  all: try destruct t as [| |a|e'| |r|r]; simpl in *.
  all: try destruct a as [r|k]; simpl in *.
  all: try destruct r; simpl in *.
  all: repeat match goal with
              | H : context [if ?b then _ else _] |- _ => destruct b eqn:?; try discriminate H
              end.
  all: try solve [eexists; reflexivity].
  all: try solve [destruct (fallback p); eexists; reflexivity].
  all: try discriminate.
  all: destruct (errChan s); simpl in *;
    [eexists; reflexivity | exfalso; list_arith].
Qed.

(** A goroutine that waits for a lock, or is over, holds none itself. *)
Lemma w_wait_holds (s : state) :
  match w_wait s with
  | Free => True
  | OnStop => stopMutex s = true /\ w_holds_stop (w_pc s) = false
              /\ w_holds_ticket (w_pc s) = false
              /\ in_once (w_tf (w_pc s)) = false
  | OnTicket => ticketMutex s = true /\ w_holds_stop (w_pc s) = false
                /\ w_holds_ticket (w_pc s) = false
                /\ in_once (w_tf (w_pc s)) = false
  | OnOnce => onceM s = true /\ w_holds_ticket (w_pc s) = false
              /\ in_once (w_tf (w_pc s)) = false
  | OnDone => done s <> [] /\ 1 <= w_sends (w_pc s)
  | Over => w_pc s = W_exit
  end.
Proof.
  unfold w_wait, tf_wait.
  destruct (w_pc s) as [| | | | |t|e| | | | | | |t|e| |a|r|r|r|e|e t|e| | | |];
    simpl; auto.
  all: try destruct t as [| |a|e'| |r|r]; simpl; auto.
  all: try destruct a as [r|k]; simpl; auto.
  all: repeat match goal with
              | |- context [if ?b then _ else _] => destruct b eqn:?; simpl; auto
              end.
  all: repeat split; auto; unfold w_sends, d_sends; simpl; try lia.
  all: destruct (done s); simpl in *; congruence.
Qed.

Lemma d_wait_holds (s : state) :
  match d_wait s with
  | Free => True
  | OnStop => stopMutex s = true /\ d_holds_stop (d_pc s) = false
              /\ d_holds_ticket (d_pc s) = false
              /\ in_once (d_tf (d_pc s)) = false
  | OnTicket => ticketMutex s = true /\ d_holds_stop (d_pc s) = false
                /\ d_holds_ticket (d_pc s) = false
                /\ in_once (d_tf (d_pc s)) = false
  | OnOnce => onceM s = true /\ d_holds_ticket (d_pc s) = false
              /\ in_once (d_tf (d_pc s)) = false
  | OnDone => done s <> [] /\ 1 <= d_sends (d_pc s)
  | Over => d_pc s = D_exit
  end.
Proof.
  unfold d_wait, tf_wait.
  destruct (d_pc s) as [| | | | |t|e| | | | | |]; simpl; auto.
  all: try destruct t as [| |a|e'| |r|r]; simpl; auto.
  all: try destruct a as [r|k]; simpl; auto.
  all: repeat match goal with
              | |- context [if ?b then _ else _] => destruct b eqn:?; simpl; auto
              end.
  all: repeat split; auto; unfold w_sends, d_sends; simpl; try lia.
  all: destruct (done s); simpl in *; congruence.
Qed.

(** Unless both goroutines are over, some step can be made. *)
Lemma progress (p : command) (s : state) :
  inv p s -> send_ok s -> ~ exited s ->
  exists c s', step p c s = Some s'.
Proof.
  intros I K X.
  pose proof (w_wait_holds s) as HW; pose proof (d_wait_holds s) as HD.
  destruct (inv_locks _ _ I) as [L1 _ L3 _ L5 _ _ _].
  assert (C : w_wait s = OnDone \/ d_wait s = OnDone ->
              exists c s', step p c s = Some s').
  { intros Hw; pose proof (K Hw) as Hc.
    assert (Hd : done s <> [])
      by (destruct Hw as [Hw|Hw]; [rewrite Hw in HW | rewrite Hw in HD]; tauto).
    exists (Caller true); unfold step, caller_step; rewrite Hc.
    destruct (done s); [congruence | eexists; reflexivity]. }
  destruct (w_wait s) eqn:W.
  1: destruct (worker_free p s I W) as [s' Hs]; exists Worker, s'; exact Hs.
  all: try solve [apply C; auto].
  all: destruct (d_wait s) eqn:D.
  all: try solve [destruct (deadline_free p s I D) as [s' Hs];
                  exists (Deadline true), s'; exact Hs].
  all: try solve [apply C; auto].
  all: exfalso.
  all: try solve [apply X; split; assumption].
  all: repeat match goal with H : _ /\ _ |- _ => destruct H end.
  all: clear C K X I.
  all: repeat match goal with
              | H : w_pc _ = _ |- _ => rewrite H in *; clear H
              | H : d_pc _ = _ |- _ => rewrite H in *; clear H
              end; simpl in *.
  all: known; congruence.
Qed.

(** ** The fallback is called at most once *)

Lemma in_once_calls (p : command) (cause : option error) (t : option tfpc) :
  in_once t = true -> cause <> None ->
  exists l, calls_in p cause t = Some l /\ length l <= 1.
Proof.
  unfold calls_in, calls_of.
  destruct cause as [err|]; [|congruence].
  destruct t as [[]|]; simpl; try discriminate; intros _ _.
  all: destruct (fallback p); eexists; split; try reflexivity; simpl; lia.
Qed.

Lemma w_cause_tf (pc : wpc) : in_once (w_tf pc) = true -> w_cause pc <> None.
Proof. destruct pc; simpl; congruence. Qed.

Lemma d_cause_tf (pc : dpc) : in_once (d_tf pc) = true -> d_cause pc <> None.
Proof. destruct pc; simpl; congruence. Qed.

Lemma calls_length (p : command) (s : state) :
  inv p s -> length (fallbackCalls s) <= 1.
Proof.
  intros I.
  destruct (inv_once _ _ I) as [_ O2 O3 O4 O5 _ _ _ _].
  destruct (onceDone s) eqn:E.
  - destruct (O5 eq_refl) as (err & _ & _ & ->).
    unfold calls_of; destruct (fallback p); simpl; lia.
  - destruct (onceM s) eqn:M.
    + rewrite (li_once _ (inv_locks _ _ I)) in M.
      apply orb_true_iff in M; destruct M as [M|M].
      * destruct (in_once_calls p _ _ M (w_cause_tf _ M)) as (l & Hl & Hn).
        rewrite (O3 l Hl); exact Hn.
      * destruct (in_once_calls p _ _ M (d_cause_tf _ M)) as (l & Hl & Hn).
        rewrite (O4 l Hl); exact Hn.
    + rewrite (O2 eq_refl eq_refl); simpl; lia.
Qed.

(** ** Closures that never wait, closures that signal *)

Lemma Go_command_silent (e : circuit) (run : unit -> option error)
    (fallback : option (error -> option error)) :
  silent (Go_command e run fallback).
Proof.
  split; simpl; [reflexivity|].
  destruct fallback; simpl; intros f H; [|discriminate].
  injection H as <-; reflexivity.
Qed.

Lemma Do_command_signalling (e : circuit) (run : unit -> option error)
    (fallback : option (error -> option error)) :
  signalling (Do_command e run fallback).
Proof.
  split; simpl.
  - unfold signals, Do_r; destruct (run tt); reflexivity.
  - destruct fallback as [fb|]; simpl; intros f H; [|discriminate].
    injection H as <-; intros err.
    unfold signals, Do_f; destruct (fb err); reflexivity.
Qed.

Lemma silent_called_sends (p : command) (s : state) :
  silent p -> called_sends p s = 0.
Proof.
  intros [R F]; unfold called_sends.
  rewrite R.
  assert (Z : forall l, list_sum (map (fb_sends p) l) = 0).
  { induction l as [|err l IH]; simpl; [reflexivity|].
    rewrite IH; unfold fb_sends.
    destruct (fallback p) as [f|] eqn:E; [rewrite (F f eq_refl)|]; reflexivity. }
  rewrite Z; destruct (runCalls s); reflexivity.
Qed.

Lemma silent_send_ok (p : command) (s : state) :
  silent p -> inv p s -> send_ok s.
Proof.
  intros Q I H.
  pose proof (inv_done _ _ I) as D; unfold done_inv in D.
  rewrite (silent_called_sends p s Q) in D.
  pose proof (w_wait_holds s) as HW; pose proof (d_wait_holds s) as HD.
  destruct H as [H|H]; [rewrite H in HW | rewrite H in HD]; lia.
Qed.

Lemma caller_reachable (p : command) (w : caller) (s : state) :
  reachable p (Go p w) s ->
  c_pc s = c_start w \/ exists r, c_pc s = C_ret r.
Proof.
  induction 1 as [|s c s' R IH H]; [left; reflexivity|].
  step_cases H; simpl; try assumption.
  all: right; eexists; reflexivity.
Qed.

Lemma signalling_fb_sends (p : command) (err : error) :
  signalling p ->
  fb_sends p err <= 1 /\ (resolution p err <> None -> fb_sends p err = 0)
  /\ (resolution p err = None -> fb_sends p err = 1).
Proof.
  intros [_ F]; unfold fb_sends, resolution.
  destruct (fallback p) as [f|]; [|repeat split; try lia; congruence].
  rewrite (F f eq_refl err).
  destruct (result (f err)); repeat split; try lia; congruence.
Qed.

Lemma signalling_send_ok (p : command) (s : state) :
  signalling p -> inv p s ->
  c_pc s = C186 \/ (exists r, c_pc s = C_ret r) -> send_ok s.
Proof.
  intros Q I [C|[r C]] H; [exact C|exfalso].
  pose proof (inv_done _ _ I) as D; unfold done_inv, called_sends in D.
  pose proof (calls_length p s I) as N.
  pose proof (w_wait_holds s) as HW; pose proof (d_wait_holds s) as HD.
  assert (R : match runCalls s with O => 0 | S _ => sends (run p tt) end <= 1).
  { destruct (runCalls s); [lia|].
    destruct Q as [Q _]; rewrite Q; destruct (result (run p tt)); lia. }
  assert (L : 1 <= length (done s) /\ 1 <= w_sends (w_pc s) + d_sends (d_pc s)).
  { destruct H as [H|H]; [rewrite H in HW | rewrite H in HD].
    all: destruct (done s); simpl; [tauto | lia]. }
  rewrite C in D.
  destruct r as [err|]; simpl in D.
  - (* the caller has received an error: the fallback has not signalled *)
    destruct (inv_once _ _ I) as [O1 _ _ _ O5 _ _ _ _].
    destruct (onceDone s) eqn:E.
    + destruct (O5 eq_refl) as (cause & _ & Ho & Hc).
      unfold outcome in Ho; rewrite C in Ho; simpl in Ho.
      assert (Hr : resolution p cause <> None).
      { intros Hn; rewrite Hn in Ho; simpl in Ho.
        apply (f_equal (@length _)) in Ho; list_arith. }
      pose proof (signalling_fb_sends p cause Q) as (_ & Z & _).
      specialize (Z Hr).
      rewrite Hc in D; unfold calls_of in D.
      destruct (fallback p); simpl in D; lia.
    + specialize (O1 eq_refl); unfold outcome in O1; rewrite C in O1.
      apply (f_equal (@length _)) in O1; list_arith.
  - (* the caller has taken one signal: at most one more was sent *)
    assert (F : list_sum (map (fb_sends p) (fallbackCalls s)) <= 1).
    { destruct (fallbackCalls s) as [|e0 [|e1 l]]; simpl in *; try lia.
      pose proof (signalling_fb_sends p e0 Q); lia. }
    lia.
Qed.

(** ** Do always gets an answer *)

(** When both goroutines are over and the caller still stands at its
    [select], one of its two channels holds a value. *)
Lemma Do_answered (p : command) (s : state) :
  signalling p -> inv p s -> exited s -> c_pc s = C186 ->
  done s <> [] \/ errChan s <> [].
Proof.
  intros Q I [Xw Xd] C.
  destruct (done s) as [|u l] eqn:Ed; [right | left; discriminate].
  pose proof (inv_done _ _ I) as D; unfold done_inv, called_sends in D.
  rewrite Ed, C, Xw, Xd in D; unfold d_sends in D; simpl in D.
  destruct (inv_once _ _ I) as [_ _ _ _ O5 _ _ O8 O9].
  destruct (inv_path _ _ I) as [_ _ _ _ _ _ _ _ _ _ _ _ _ _ P15 P16 P17 _ _].
  pose proof (ei_w_left _ _ (inv_exit _ _ I)) as X1.
  pose proof (si_stop _ (inv_stop _ _ I)) as S3.
  unfold sc_active, run_active, to_active in S3.
  rewrite Xw, Xd in *; simpl in *.
  rewrite ?orb_false_r in S3.
  specialize (X1 eq_refl).
  assert (K : onceDone s = true
              \/ (reported "success" s = true /\ reported "failure" s = false)).
  { destruct (reported "short-circuit" s), (reported "rejected" s),
      (reported "failure" s), (reported "timeout" s), (reported "success" s),
      (stop s); simpl in *; try discriminate; auto. }
  destruct K as [K|[K1 K2]].
  - destruct (O5 K) as (cause & _ & Ho & Hc).
    unfold outcome in Ho; rewrite Xw, Xd, C in Ho; simpl in Ho.
    rewrite app_nil_r in Ho.
    destruct (resolution p cause) eqn:R; [rewrite Ho; discriminate|].
    exfalso.
    pose proof (signalling_fb_sends p cause Q) as (_ & _ & Z).
    specialize (Z R).
    assert (F : fallback p <> None)
      by (unfold resolution in R; destruct (fallback p); congruence).
    rewrite Hc in D; unfold calls_of in D.
    destruct (fallback p); [simpl in D; lia | congruence].
  - exfalso.
    rewrite (P15 K1) in D.
    destruct Q as [Q _]; unfold signals in Q.
    rewrite (P17 K1 K2) in Q; lia.
Qed.

(** ** A lookup that fails *)

Lemma lookup_failed (p : command) (w : caller) (err : error) (s : state) :
  GetCircuit p = Some err -> reachable p (Go p w) s ->
  exited s /\ events s = [] /\ returned s = [] /\ runCalls s = 0
  /\ fallbackCalls s = [] /\ done s = []
  /\ errChan s ++ got (c_pc s) = [err].
Proof.
  intros E R; induction R as [|s c s' R IH H].
  - unfold Go, exited; rewrite E; simpl; destruct w; auto 10.
  - destruct IH as ([Xw Xd] & I2 & I3 & I4 & I5 & I6 & I7).
    unfold exited.
    step_cases H; simpl in *; try congruence.
    all: repeat match goal with
                | E : c_pc _ = _ |- _ => rewrite E in *; clear E
                | E : errChan _ = _ |- _ => rewrite E in *; clear E
                | E : done _ = _ |- _ => rewrite E in *; clear E
                end; simpl in *; try discriminate.
    all: rewrite app_nil_r in I7; injection I7 as -> ->; auto 10.
Qed.

(** ** Complete executions *)

Lemma exited_dec (s : state) : exited s \/ ~ exited s.
Proof.
  unfold exited.
  destruct (w_pc s); try (right; intros [? ?]; discriminate).
  destruct (d_pc s); try (right; intros [? ?]; discriminate).
  left; split; reflexivity.
Qed.

Lemma stuck_exited (p : command) (s : state) :
  inv p s -> send_ok s -> stuck p s -> exited s.
Proof.
  intros I K St.
  destruct (exited_dec s) as [X|X]; [exact X|exfalso].
  destruct (progress p s I K X) as (c & s' & H).
  rewrite (St c) in H; discriminate.
Qed.

(** A call either has found its circuit, and then the invariant holds, or
    it has not, and then nothing has run. *)
Lemma reachable_cases (p : command) (w : caller) (s : state) :
  reachable p (Go p w) s ->
  inv p s
  \/ exists err, GetCircuit p = Some err /\ exited s /\ events s = []
       /\ returned s = [] /\ runCalls s = 0 /\ fallbackCalls s = []
       /\ done s = [] /\ errChan s ++ got (c_pc s) = [err].
Proof.
  intros R; destruct (GetCircuit p) as [err|] eqn:E.
  - right; exists err; split; [reflexivity|].
    exact (lookup_failed p w err s E R).
  - left; exact (inv_reachable p w s E R).
Qed.

Lemma delivered_outcome (s : state) (err : error) :
  In err (errChan s ++ got (c_pc s)) -> In err (outcome s).
Proof.
  unfold outcome; rewrite !in_app_iff; tauto.
Qed.

Lemma delivered_length (s : state) :
  length (errChan s ++ got (c_pc s)) <= length (outcome s).
Proof.
  unfold outcome; rewrite !length_app; lia.
Qed.

(** Once a timeout is reported, no other guarded resolution ever is. *)
Lemma timeout_alone (p : command) (s : state) :
  inv p s -> reported "timeout" s = true ->
  reported "failure" s = false /\ reported "success" s = false
  /\ reported "short-circuit" s = false.
Proof.
  intros I T.
  destruct (inv_stop _ _ I) as [_ _ _ _ S2 S3 _ _ _ _].
  unfold sc_active, run_active, to_active in *; rewrite T in *; simpl in *.
  rewrite andb_true_r in S2, S3.
  destruct (reported "failure" s), (reported "success" s),
    (reported "short-circuit" s); simpl in *; auto; discriminate.
Qed.

(** The operation is started only with the ticket in hand, hence never in a
    call that is rejected. *)
Lemma ran_not_rejected (p : command) (s : state) :
  inv p s -> runCalls s <> 0 ->
  reported "rejected" s = false /\ reported "short-circuit" s = false
  /\ AllowRequest p = true /\ ticket s = Tickets p /\ Tickets p <> None.
Proof.
  intros I N.
  destruct (inv_path _ _ I) as
    [_ _ _ _ _ _ P7 _ _ _ P11 P12 P13 _ _ _ _ _ _].
  pose proof (P11 N) as Ht; destruct (P7 Ht) as [Hk Ha].
  assert (Hn : Tickets p <> None) by congruence.
  repeat split; auto.
  - destruct (reported "rejected" s); [|reflexivity].
    destruct (P13 eq_refl); congruence.
  - destruct (reported "short-circuit" s); [|reflexivity].
    specialize (P12 eq_refl); congruence.
Qed.

(** With the worker gone, [stop] set and only its exits left, the call was
    resolved through the once, unless the operation's success is all there
    is. *)
Lemma exited_resolved (p : command) (s : state) :
  inv p s -> exited s ->
  onceDone s = true
  \/ (reported "success" s = true /\ reported "failure" s = false).
Proof.
  intros I [Xw Xd].
  destruct (inv_once _ _ I) as [_ _ _ _ _ _ _ O8 O9].
  pose proof (ei_w_left _ _ (inv_exit _ _ I)) as X1.
  pose proof (si_stop _ (inv_stop _ _ I)) as S3.
  unfold sc_active, run_active, to_active in S3.
  rewrite Xw, Xd in *; simpl in *.
  rewrite ?orb_false_r in S3.
  specialize (X1 eq_refl).
  destruct (reported "short-circuit" s), (reported "rejected" s),
    (reported "failure" s), (reported "timeout" s), (reported "success" s),
    (stop s); simpl in *; try discriminate; auto.
Qed.

(** ** Continuations *)

Lemma reachable_extend (p : command) (sched : list choice) (s0 s s' : state) :
  reachable p s0 s -> exec p sched s = Some s' -> reachable p s0 s'.
Proof.
  revert s; induction sched as [|c sched IH]; simpl; intros s R H.
  - injection H as <-; exact R.
  - destruct (step p c s) as [s1|] eqn:E; [|discriminate].
    exact (IH s1 (reach_step p s0 s c s1 R E) H).
Qed.

Lemma events_step (p : command) (c : choice) (s s' : state) :
  step p c s = Some s' -> exists l, events s' = events s ++ l.
Proof.
  intros H; step_cases H; simpl.
  all: first [ exists []; rewrite app_nil_r; reflexivity
             | eexists; reflexivity ].
Qed.

Lemma reported_exec (p : command) (k : string) (sched : list choice)
    (s s' : state) :
  exec p sched s = Some s' -> reported k s = true -> reported k s' = true.
Proof.
  revert s; induction sched as [|c sched IH]; simpl; intros s H K.
  - injection H as <-; exact K.
  - destruct (step p c s) as [s1|] eqn:E; [|discriminate].
    apply (IH s1 H).
    destruct (events_step p c s s1 E) as [l Hl].
    unfold reported in *; rewrite Hl, has_event_app, K; reflexivity.
Qed.

Lemma runCalls_step (p : command) (c : choice) (s s' : state) :
  step p c s = Some s' -> runCalls s <= runCalls s'.
Proof.
  intros H; step_cases H; simpl; lia.
Qed.

Lemma runCalls_exec (p : command) (sched : list choice) (s s' : state) :
  exec p sched s = Some s' -> runCalls s <= runCalls s'.
Proof.
  revert s; induction sched as [|c sched IH]; simpl; intros s H.
  - injection H as <-; lia.
  - destruct (step p c s) as [s1|] eqn:E; [|discriminate].
    apply runCalls_step in E; apply IH in H; lia.
Qed.

(** With closures that return, a call can always be run to the end of both
    goroutines. *)
Lemma run_to_end (p : command) (s : state) :
  silent p -> inv p s ->
  exists sched s', exec p sched s = Some s' /\ exited s'.
Proof.
  intros Q.
  enough (G : forall n s, measure p s <= n -> inv p s ->
                          exists sched s', exec p sched s = Some s' /\ exited s')
    by (apply (G (measure p s)); lia).
  clear s; induction n as [|n IH]; intros s M I.
  all: destruct (exited_dec s) as [X|X];
    [exists [], s; split; [reflexivity | exact X]|].
  all: destruct (progress p s I (silent_send_ok p s Q I) X) as (c & s1 & H).
  all: pose proof (step_measure p c s s1 H) as L.
  - lia.
  - destruct (IH s1) as (sched & s' & E & X'); [lia | exact (inv_step p c s s1 I H)|].
    exists (c :: sched), s'; simpl; rewrite H; split; assumption.
Qed.

(** ** The caller that receives *)

Lemma receiver_reachable (p : command) (s : state) :
  reachable p (Go p Receives) s ->
  c_pc s = C_recv \/ exists err, c_pc s = C_ret (Some err).
Proof.
  induction 1 as [|s c s' R IH H]; [left; reflexivity|].
  step_cases H; simpl; try assumption.
  all: try solve [right; eexists; reflexivity].
  all: destruct IH as [C|[err C]]; congruence.
Qed.

Lemma exited_outcome (s : state) :
  exited s -> outcome s = errChan s ++ got (c_pc s).
Proof.
  intros [Xw Xd]; unfold outcome; rewrite Xw, Xd; reflexivity.
Qed.

Lemma nil_of_length {A : Type} (l : list A) : length l <= 0 -> l = [].
Proof. destruct l; simpl; [reflexivity | lia]. Qed.

(** Whatever the fallback was called with, once it has returned nil the
    result channel stays empty. *)
Lemma nil_resolution_silent (p : command) (s : state) (cause : error) :
  inv p s -> In cause (fallbackCalls s) -> resolution p cause = None ->
  errChan s ++ got (c_pc s) = [].
Proof.
  intros I Hi N.
  pose proof (delivered_length s) as L.
  apply nil_of_length.
  destruct (onceDone s) eqn:D.
  - destruct (oi_done _ _ (inv_once _ _ I) D) as (c & _ & O & F).
    rewrite F in Hi; unfold calls_of in Hi.
    destruct (fallback p); [|destruct Hi].
    destruct Hi as [->|[]].
    rewrite O, N in L; exact L.
  - rewrite (oi_open _ _ (inv_once _ _ I) D) in L; exact L.
Qed.

(** ** What the fallback is called with *)

Lemma calls_in_cause (p : command) (cause : option error) (t : option tfpc)
    (l : list error) (err : error) :
  calls_in p cause t = Some l -> In err l ->
  cause = Some err /\ fallback p <> None.
Proof.
  unfold calls_in, calls_of.
  destruct cause as [c|]; [|discriminate].
  destruct t as [[]|]; try discriminate.
  all: intros H; injection H as <-; simpl.
  all: try solve [intros []].
  all: destruct (fallback p); simpl; [|intros []].
  all: intros [->|[]]; split; [reflexivity|discriminate].
Qed.

(** The fallback is called with a cause that has been reported. *)
Lemma called_with_cause (p : command) (s : state) (cause : error) :
  inv p s -> In cause (fallbackCalls s) -> cause_ok p s cause.
Proof.
  intros I Hi.
  destruct (inv_once _ _ I) as [_ O2 O3 O4 O5 _ _ _ _].
  destruct (inv_stop _ _ I) as [_ _ _ _ _ _ S7 S8 S9 S10].
  pose proof (pi_w_ok _ _ (inv_path _ _ I)) as W.
  destruct (onceDone s) eqn:E.
  - destruct (O5 eq_refl) as (c & Hc & _ & Hf).
    rewrite Hf in Hi; unfold calls_of in Hi.
    destruct (fallback p); [|destruct Hi].
    destruct Hi as [<-|[]]; exact Hc.
  - destruct (onceM s) eqn:M.
    2: rewrite (O2 eq_refl eq_refl) in Hi; destruct Hi.
    rewrite (li_once _ (inv_locks _ _ I)) in M.
    apply orb_true_iff in M; destruct M as [M|M].
    + destruct (in_once_calls p _ _ M (w_cause_tf _ M)) as (l & Hl & _).
      rewrite (O3 l Hl) in Hi.
      destruct (calls_in_cause p _ _ l cause Hl Hi) as [Hc _].
      unfold cause_ok.
      destruct (w_pc s); simpl in *; try discriminate;
        injection Hc as <-.
      * left; auto.
      * right; left; auto.
      * right; right; right; split; [apply W | auto].
    + destruct (in_once_calls p _ _ M (d_cause_tf _ M)) as (l & Hl & _).
      rewrite (O4 l Hl) in Hi.
      destruct (calls_in_cause p _ _ l cause Hl Hi) as [Hc _].
      unfold cause_ok.
      destruct (d_pc s); simpl in *; try discriminate;
        injection Hc as <-.
      right; right; left; auto.
Qed.

(** In a call whose operation was started and that has timed out, the
    timeout is the only cause there is. *)
Lemma timeout_only_cause (p : command) (s : state) (cause : error) :
  inv p s -> reported "timeout" s = true -> runCalls s = 1 ->
  cause_ok p s cause -> cause = ErrTimeout.
Proof.
  intros I T N Hk.
  destruct (timeout_alone p s I T) as (Hf & _ & Hc).
  assert (Hn : runCalls s <> 0) by lia.
  destruct (ran_not_rejected p s I Hn) as (Hr & _).
  destruct Hk as [[_ H]|[[_ H]|[[H _]|[_ H]]]]; congruence.
Qed.

(** ** The rejected path *)

(** A worker that finds the pool empty has gone through the call of
    [tryFallback] of line 92, with [rejected] reported before it. *)
Lemma rejection_called (p : command) (w : caller) (s : state) :
  GetCircuit p = None -> reachable p (Go p w) s ->
  AllowRequest p = true -> Tickets p = None -> w_past_92 (w_pc s) = true ->
  exists t, reachable p (Go p w) t /\ reachable p t s
            /\ w_pc t = W92 T198 /\ reported "rejected" t = true
            /\ runCalls t = 0.
Proof.
  intros E R A K; induction R as [|s c s' R IH H].
  - unfold Go; rewrite E; simpl; discriminate.
  - intros Hp.
    pose proof (inv_reachable p w s E R) as I.
    destruct (w_past_92 (w_pc s)) eqn:B.
    + destruct (IH eq_refl) as (t & R1 & R2 & Ht).
      exists t; split; [exact R1|].
      split; [exact (reach_step p t s c s' R2 H) | exact Ht].
    + exists s'; split; [exact (reach_step p _ s c s' R H)|].
      split; [constructor|].
      pose proof (pi_sc _ _ (inv_path _ _ I)) as P1.
      pose proof (pi_held' _ _ (inv_path _ _ I)) as P5.
      pose proof (pi_before _ _ (inv_path _ _ I)) as P8.
      clear IH R I.
      step_cases H; simpl in *.
      all: repeat match goal with
                  | E : w_pc _ = _ |- _ => rewrite E in *
                  end; simpl in *; try congruence.
      all: try solve [specialize (P1 eq_refl); congruence].
      all: try solve [specialize (P5 eq_refl); congruence].
      split; [reflexivity|].
      split; [|exact (P8 eq_refl)].
      unfold reported; simpl; rewrite has_event_app; simpl.
      apply orb_true_r.
Qed.

(** * The executor's properties *)

(** ** Outcome resolution *)

(** C1. Outcome resolution does not happen at most once per call.  With
    an operation that fails and a fallback that returns nil, the worker
    alone reports [failure], runs the fallback and then reports [success]
    as well: two resolution actions for one call.  With an empty pool and a
    timer that fires first, the call is reported both as [timeout] and as
    [rejected], since the rejection is not under the [stop] guard. *)
Theorem Go_resolves_more_than_once :
  (exists s,
      exec failing_call (worker_first 19) (Go failing_call Ignores) = Some s
      /\ exited s
      /\ events s = [("failure", 5%Z); ("fallback-success", 5%Z); ("success", 5%Z)]
      /\ fallbackCalls s = [boom])
  /\ (exists s,
         exec rejected_call (timer_first 8) (Go rejected_call Ignores) = Some s
         /\ exited s
         /\ events s = [("timeout", 0%Z); ("rejected", 0%Z)]).
Proof.
  split; eexists; (split; [vm_compute; reflexivity|]);
    repeat split; reflexivity.
Qed.

(** C2. A failed operation whose fallback returns nil is reported twice:
    the worker reports [failure], and, because the [return] of line 115 is
    taken only when [tryFallback] hands back an error, goes on to line 119
    and reports [success] too. *)
Theorem failure_reported_as_success_too :
  exists s,
    exec failing_call (repeat Worker 19) (Go failing_call Ignores) = Some s
    /\ w_pc s = W_exit
    /\ result (run failing_call tt) = Some boom
    /\ reported "failure" s = true
    /\ reported "success" s = true
    /\ events s = [("failure", 5%Z); ("fallback-success", 5%Z); ("success", 5%Z)].
Proof.
  eexists; split; [vm_compute; reflexivity|].
  repeat split; reflexivity.
Qed.

(** ** Tickets *)

(** C8. A ticket acquired after the deadline has run is never returned:
    the timer fires first, the deadline calls [Return] with the [ticket]
    that is still nil, and the worker then takes a ticket from the pool
    that nobody gives back. *)
Theorem ticket_never_returned :
  exists s,
    exec good_call (timer_first 10) (Go good_call Ignores) = Some s
    /\ exited s
    /\ stuck good_call s
    /\ ticket s = Some 7
    /\ returned s = [None].
Proof.
  eexists; split; [vm_compute; reflexivity|].
  repeat split; try reflexivity.
  intros [|[]|[]]; reflexivity.
Qed.

(** ** The fallback *)

(** C3. [tryFallback], called while no other goroutine is inside the once,
    returns and does what the specification says of a resolution attempt:
    the first attempt hands back the original error without a fallback, nil
    with [fallback-success] reported when the fallback returns nil, and
    with [fallback-failure] reported an error whose text holds both the
    fallback's error and the original one; a later attempt changes nothing
    and hands back nil. *)
Theorem tryFallback_first_resolution (e : circuit) (run : unit -> option error)
    (fallback : option (error -> option error)) (dur : Z) (err : error)
    (s : state) :
  onceM s = false ->
  tryFallback_run 8 (Go_command e run fallback) dur err T198 s
  = Some (first_resolution fallback dur err s)
  /\ (onceDone s = true ->
      tryFallback_run 8 (Go_command e run fallback) dur err T198 s
      = Some (None, s))
  /\ forall fallbackErr,
       Error (Errorf fallbackErr err)
       = ("fallback failed with '" ++ Error fallbackErr
          ++ "'. run error was '" ++ Error err ++ "'")%string.
Proof.
  intros M; split; [|split].
  - unfold first_resolution.
    destruct s; simpl in *; subst.
    destruct onceDone0; simpl; [reflexivity|].
    destruct fallback as [f|]; simpl; [|reflexivity].
    unfold plain; destruct (f err); reflexivity.
  - intros D; simpl; rewrite D; reflexivity.
  - reflexivity.
Qed.

Lemma tryFallback_first_resolution_witness :
  (onceM (Go failing_call Ignores) = false
   /\ tryFallback_run 8 (Go_command (answers true None) (fun _ => None)
                           (Some (fun _ => Some boom)))
        0 ErrTimeout T198 (Go failing_call Ignores)
      = Some (Some (errorString
                      "fallback failed with 'boom'. run error was 'hystrix: timeout'"),
              set_onceDone true
                (ReportEvent "fallback-failure" 0
                   (set_fallbackCalls [ErrTimeout] (Go failing_call Ignores)))))
  /\ (onceM (set_onceDone true (Go failing_call Ignores)) = false
      /\ onceDone (set_onceDone true (Go failing_call Ignores)) = true
      /\ tryFallback_run 8 failing_call 0 ErrTimeout T198
           (set_onceDone true (Go failing_call Ignores))
         = Some (None, set_onceDone true (Go failing_call Ignores))).
Proof.
  split.
  - split; [reflexivity|].
    exact (proj1 (tryFallback_first_resolution (answers true None) (fun _ => None)
                    (Some (fun _ => Some boom)) 0 ErrTimeout
                    (Go failing_call Ignores) eq_refl)).
  - split; [reflexivity|split; [reflexivity|]].
    exact (proj1 (proj2 (tryFallback_first_resolution (answers true (Some 7))
                           (fun _ => Some boom) (Some (fun _ => None)) 0
                           ErrTimeout (set_onceDone true (Go failing_call Ignores))
                           eq_refl)) eq_refl).
Defined.

(** ** The result channel *)

(** A success that follows no failure leaves the once untouched. *)
Lemma plain_success_open (p : command) (s : state) :
  inv p s -> reported "success" s = true -> reported "failure" s = false ->
  onceDone s = false.
Proof.
  intros I Hs Hf.
  destruct (onceDone s) eqn:E; [exfalso|reflexivity].
  destruct (oi_done _ _ (inv_once _ _ I) E) as (cause & Hc & _).
  pose proof (pi_ev_succ _ _ (inv_path _ _ I) Hs) as Hr.
  assert (Hn : runCalls s <> 0) by lia.
  destruct (ran_not_rejected p s I Hn) as (R1 & R2 & _).
  destruct Hc as [[_ H]|[[_ H]|[[_ H]|[_ H]]]]; try congruence.
  destruct (timeout_alone p s I H) as (_ & T & _); congruence.
Qed.

(** The call of [good_call] by a caller that only receives from the
    channel: the operation succeeds, both goroutines end, nothing is on the
    channel, which is not closed either, and the caller waits for ever. *)
Lemma receiver_blocks_forever :
  exists s,
    exec good_call (worker_first 12) (Go good_call Receives) = Some s
    /\ exited s /\ errChan s = [] /\ c_pc s = C_recv
    /\ stuck good_call s.
Proof.
  eexists; split; [vm_compute; reflexivity|].
  repeat split; try reflexivity.
  intros [|[]|[]]; reflexivity.
Qed.

(** C4, amended. Over the whole call at most one error is put on the
    result channel, counting the one the caller may have received, and the
    channel is never closed.  When both goroutines of a call that found its
    circuit are over, exactly one of two things has happened: the call has
    been resolved by [tryFallback], or the operation's success is the only
    outcome reported.  Nothing is put on the channel in the second case, nor
    when the fallback has returned nil for the error it was called with: a
    caller that only receives from the channel then waits for ever.  When
    the resolution gives an error, that error and nothing else is on the
    channel, and a caller that receives gets it. *)
Theorem errChan_at_most_one (p : command) (w : caller) (s : state) :
  reachable p (Go p w) s ->
  length (errChan s ++ got (c_pc s)) <= 1
  /\ (plain_success s -> errChan s ++ got (c_pc s) = [])
  /\ (forall cause, In cause (fallbackCalls s) -> resolution p cause = None ->
      errChan s ++ got (c_pc s) = [])
  /\ (GetCircuit p = None -> (forall cause, resolution p cause = None) ->
      errChan s ++ got (c_pc s) = [])
  /\ (GetCircuit p = None -> exited s ->
      ((exists cause, resolved p s cause) /\ ~ plain_success s)
      \/ (plain_success s /\ onceDone s = false /\ fallbackCalls s = []))
  /\ (GetCircuit p = None -> exited s ->
      forall cause err, resolved p s cause -> resolution p cause = Some err ->
        errChan s ++ got (c_pc s) = [err]
        /\ (w = Receives -> stuck p s -> c_pc s = C_ret (Some err)))
  /\ (GetCircuit p = None -> exited s -> c_pc s = C_recv ->
      plain_success s
      \/ (exists cause, In cause (fallbackCalls s) /\ resolution p cause = None) ->
      errChan s = [] /\ stuck p s).
Proof.
  intros R.
  assert (B : inv p s -> plain_success s -> errChan s ++ got (c_pc s) = []).
  { intros I [Hs Hf].
    pose proof (plain_success_open p s I Hs Hf) as E.
    pose proof (oi_open _ _ (inv_once _ _ I) E) as O.
    pose proof (delivered_length s) as L; rewrite O in L.
    apply nil_of_length, L. }
  split; [|split; [|split; [|split; [|split; [|split]]]]].
  - destruct (reachable_cases p w s R) as [I|(err & _ & _ & _ & _ & _ & _ & _ & H)].
    + pose proof (outcome_length p s (inv_once _ _ I)).
      pose proof (delivered_length s); lia.
    + rewrite H; simpl; lia.
  - intros P.
    destruct (reachable_cases p w s R) as [I|(err & _ & _ & H & _)].
    + exact (B I P).
    + destruct P as [Hs _]; unfold reported in Hs; rewrite H in Hs; discriminate.
  - intros cause Hi N.
    destruct (reachable_cases p w s R) as [I|(err & _ & _ & _ & _ & _ & F & _)].
    + exact (nil_resolution_silent p s cause I Hi N).
    + rewrite F in Hi; destruct Hi.
  - intros E N.
    pose proof (inv_reachable p w s E R) as I.
    pose proof (delivered_length s) as L.
    apply nil_of_length.
    destruct (onceDone s) eqn:D.
    + destruct (oi_done _ _ (inv_once _ _ I) D) as (cause & _ & O & _).
      rewrite O, N in L; exact L.
    + rewrite (oi_open _ _ (inv_once _ _ I) D) in L; exact L.
  - intros E X.
    pose proof (inv_reachable p w s E R) as I.
    destruct (exited_resolved p s I X) as [D|[Hs Hf]].
    + left; split; [exact (oi_done _ _ (inv_once _ _ I) D)|].
      intros [Hs Hf].
      rewrite (plain_success_open p s I Hs Hf) in D; discriminate.
    + right; split; [split; assumption|].
      pose proof (plain_success_open p s I Hs Hf) as D.
      split; [exact D|].
      apply (oi_calls _ _ (inv_once _ _ I) D).
      destruct X as [Xw Xd].
      rewrite (li_once _ (inv_locks _ _ I)), Xw, Xd; reflexivity.
  - intros E X cause err [_ [O _]] N.
    rewrite (exited_outcome s X), N in O; simpl in O.
    split; [exact O|].
    intros -> St.
    destruct (receiver_reachable p s R) as [C|[e C]].
    + exfalso; rewrite C in O; simpl in O; rewrite app_nil_r in O.
      specialize (St (Caller false)); unfold step, caller_step in St.
      rewrite C, O in St; discriminate.
    + rewrite C in O |- *; simpl in O.
      destruct (errChan s); simpl in O; [|destruct l; discriminate].
      congruence.
  - intros E X C H.
    pose proof (inv_reachable p w s E R) as I.
    assert (Z : errChan s ++ got (c_pc s) = []).
    { destruct H as [P|(cause & Hi & N)];
        [exact (B I P) | exact (nil_resolution_silent p s cause I Hi N)]. }
    rewrite C in Z; simpl in Z; rewrite app_nil_r in Z.
    split; [exact Z|].
    destruct X as [Xw Xd].
    intros c; destruct c; unfold step, worker_step, deadline_step, caller_step;
      rewrite ?Xw, ?Xd, ?C, ?Z; reflexivity.
Qed.

Lemma quiet_end_reachable : reachable quiet_call (Go quiet_call Receives) quiet_end.
Proof.
  apply exec_reachable with (sched := worker_first 12); reflexivity.
Qed.

Lemma picky_end_reachable : reachable picky_call (Go picky_call Receives) picky_end.
Proof.
  apply exec_reachable with (sched := worker_first 19); reflexivity.
Qed.

Lemma heard_end_reachable :
  reachable hopeless_call (Go hopeless_call Receives) heard_end.
Proof.
  apply exec_reachable with (sched := worker_first 19 ++ [Caller false]).
  reflexivity.
Qed.

Lemma heard_end_resolved : resolved hopeless_call heard_end boom.
Proof.
  split; [right; right; right; split; reflexivity|].
  split; reflexivity.
Qed.

Lemma errChan_at_most_one_witness :
  (* the operation succeeds: nothing is delivered, the receiver waits *)
  (reachable quiet_call (Go quiet_call Receives) quiet_end
   /\ plain_success quiet_end /\ exited quiet_end /\ c_pc quiet_end = C_recv
   /\ length (errChan quiet_end ++ got (c_pc quiet_end)) <= 1
   /\ errChan quiet_end ++ got (c_pc quiet_end) = []
   /\ errChan quiet_end ++ got (c_pc quiet_end) = []
   /\ errChan quiet_end = [] /\ stuck quiet_call quiet_end)
  (* the fallback returns nil for the failure it is called with *)
  /\ (reachable picky_call (Go picky_call Receives) picky_end
      /\ In boom (fallbackCalls picky_end) /\ resolution picky_call boom = None
      /\ resolution picky_call ErrTimeout <> None
      /\ exited picky_end /\ c_pc picky_end = C_recv
      /\ errChan picky_end ++ got (c_pc picky_end) = []
      /\ ((exists cause, resolved picky_call picky_end cause)
          /\ ~ plain_success picky_end)
      /\ errChan picky_end = [] /\ stuck picky_call picky_end)
  (* the fallback fails: its error is delivered, the receiver gets it *)
  /\ (reachable hopeless_call (Go hopeless_call Receives) heard_end
      /\ exited heard_end /\ resolved hopeless_call heard_end boom
      /\ resolution hopeless_call boom
         = Some (Errorf (errorString "no luck") boom)
      /\ stuck hopeless_call heard_end
      /\ errChan heard_end ++ got (c_pc heard_end)
         = [Errorf (errorString "no luck") boom]
      /\ c_pc heard_end = C_ret (Some (Errorf (errorString "no luck") boom))).
Proof.
  split; [|split].
  - pose proof (errChan_at_most_one quiet_call Receives quiet_end
                  quiet_end_reachable) as (H1 & H2 & _ & H4 & _ & _ & H7).
    assert (P : plain_success quiet_end) by (split; reflexivity).
    assert (X : exited quiet_end) by (split; reflexivity).
    split; [exact quiet_end_reachable|].
    split; [exact P|]. split; [exact X|]. split; [reflexivity|].
    split; [exact H1|].
    split; [exact (H2 P)|].
    split; [exact (H4 eq_refl (fun _ => eq_refl))|].
    exact (H7 eq_refl X eq_refl (or_introl P)).
  - pose proof (errChan_at_most_one picky_call Receives picky_end
                  picky_end_reachable) as (_ & _ & H3 & _ & H5 & _ & H7).
    assert (Hi : In boom (fallbackCalls picky_end)) by (left; reflexivity).
    assert (N : resolution picky_call boom = None) by reflexivity.
    assert (X : exited picky_end) by (split; reflexivity).
    split; [exact picky_end_reachable|].
    split; [exact Hi|]. split; [exact N|]. split; [discriminate|].
    split; [exact X|]. split; [reflexivity|].
    split; [exact (H3 boom Hi N)|].
    split.
    + destruct (H5 eq_refl X) as [L|[[_ F] _]]; [exact L | discriminate F].
    + exact (H7 eq_refl X eq_refl
               (or_intror (ex_intro _ boom (conj Hi N)))).
  - pose proof (errChan_at_most_one hopeless_call Receives heard_end
                  heard_end_reachable) as (_ & _ & _ & _ & _ & H6 & _).
    assert (X : exited heard_end) by (split; reflexivity).
    assert (St : stuck hopeless_call heard_end) by (intros [|t|d]; reflexivity).
    split; [exact heard_end_reachable|].
    split; [exact X|]. split; [exact heard_end_resolved|].
    split; [reflexivity|]. split; [exact St|].
    destruct (H6 eq_refl X boom _ heard_end_resolved eq_refl) as [A B'].
    split; [exact A | exact (B' eq_refl St)].
Defined.

(** ** After the deadline *)

(** C5. Once the deadline has reported [timeout], no [failure] is ever
    reported for the call, whatever the operation returns later.  When the
    operation was started, its error reaches neither the fallback, which is
    called with [ErrTimeout] only, nor the result channel, which carries
    the resolution of [ErrTimeout] only.  And nothing cancels the operation:
    with closures that return, every continuation of the call is finite,
    keeps [timeout] reported and [failure] unreported, never undoes the call
    of [run], and is complete only with the worker at its exit, past the
    return of [run]; and a continuation that takes the worker there
    exists. *)
Theorem late_failure_dropped (p : command) (w : caller) (s : state) :
  reachable p (Go p w) s -> reported "timeout" s = true ->
  reported "failure" s = false
  /\ (runCalls s = 1 ->
      (forall cause, In cause (fallbackCalls s) -> cause = ErrTimeout)
      /\ (forall err, In err (errChan s ++ got (c_pc s)) ->
                      resolution p ErrTimeout = Some err))
  /\ (silent p ->
      (forall sched s', exec p sched s = Some s' ->
         length sched <= measure p s
         /\ reported "timeout" s' = true /\ reported "failure" s' = false
         /\ runCalls s <= runCalls s'
         /\ (stuck p s' -> w_pc s' = W_exit))
      /\ exists sched s', exec p sched s = Some s' /\ w_pc s' = W_exit).
Proof.
  intros R T.
  destruct (reachable_cases p w s R) as [I|(err & _ & _ & H & _)];
    [|unfold reported in T; rewrite H in T; discriminate].
  assert (F : forall s', inv p s' -> reported "timeout" s' = true ->
                         reported "failure" s' = false)
    by (intros s' I' T'; exact (proj1 (timeout_alone p s' I' T'))).
  split; [exact (F s I T)|split].
  - intros N; split.
    + intros cause Hi.
      exact (timeout_only_cause p s cause I T N (called_with_cause p s cause I Hi)).
    + intros err Hi; apply delivered_outcome in Hi.
      destruct (onceDone s) eqn:D.
      * destruct (oi_done _ _ (inv_once _ _ I) D) as (cause & Hk & Ho & _).
        rewrite Ho in Hi.
        rewrite (timeout_only_cause p s cause I T N Hk) in Hi.
        destruct (resolution p ErrTimeout); simpl in Hi; [|contradiction].
        destruct Hi as [->|[]]; reflexivity.
      * rewrite (oi_open _ _ (inv_once _ _ I) D) in Hi; contradiction.
  - intros Q; split.
    + intros sched s' H.
      assert (I' : inv p s').
      { clear R T F; revert s I H; induction sched as [|c sched IH]; simpl; intros s I H.
        - injection H as <-; exact I.
        - destruct (step p c s) as [s1|] eqn:E; [|discriminate].
          exact (IH s1 (inv_step p c s s1 I E) H). }
      pose proof (reported_exec p "timeout" sched s s' H T) as T'.
      split; [pose proof (exec_measure p sched s s' H); lia|].
      split; [exact T'|].
      split; [exact (F s' I' T')|].
      split; [exact (runCalls_exec p sched s s' H)|].
      intros St.
      exact (proj1 (stuck_exited p s' I' (silent_send_ok p s' Q I') St)).
    + destruct (run_to_end p s Q I) as (sched & s' & H & [Xw _]).
      exists sched, s'; split; assumption.
Qed.

Lemma timeout_before_failure_reachable :
  reachable picky_call (Go picky_call Ignores) timeout_before_failure.
Proof.
  apply exec_reachable with (sched := repeat Worker 5 ++ repeat (Deadline true) 5).
  reflexivity.
Qed.

Lemma late_failure_end_reachable :
  reachable picky_call (Go picky_call Ignores) late_failure_end.
Proof.
  apply (reachable_extend picky_call late_failure_rest _ timeout_before_failure);
    [exact timeout_before_failure_reachable | reflexivity].
Qed.

Lemma late_failure_dropped_witness :
  (* the timer fires while the operation runs *)
  (reachable picky_call (Go picky_call Ignores) timeout_before_failure
   /\ reported "timeout" timeout_before_failure = true
   /\ w_pc timeout_before_failure = W100r (Ret (Some boom))
   /\ silent picky_call
   /\ exec picky_call late_failure_rest timeout_before_failure
      = Some late_failure_end
   /\ stuck picky_call late_failure_end
   /\ reported "failure" timeout_before_failure = false
   /\ reported "failure" late_failure_end = false
   /\ w_pc late_failure_end = W_exit)
  (* the operation has returned its error after the timeout *)
  /\ (reachable picky_call (Go picky_call Ignores) late_failure_end
      /\ reported "timeout" late_failure_end = true
      /\ runCalls late_failure_end = 1
      /\ result (run picky_call tt) = Some boom
      /\ In ErrTimeout (fallbackCalls late_failure_end)
      /\ In (Errorf (errorString "no luck") ErrTimeout)
            (errChan late_failure_end ++ got (c_pc late_failure_end))
      /\ reported "failure" late_failure_end = false
      /\ (forall cause, In cause (fallbackCalls late_failure_end) ->
                        cause = ErrTimeout)
      /\ resolution picky_call ErrTimeout
         = Some (Errorf (errorString "no luck") ErrTimeout)).
Proof.
  split.
  - assert (Q : silent picky_call) by apply Go_command_silent.
    assert (H : exec picky_call late_failure_rest timeout_before_failure
                = Some late_failure_end) by reflexivity.
    assert (St : stuck picky_call late_failure_end)
      by (intros [|t|d]; reflexivity).
    pose proof (late_failure_dropped picky_call Ignores timeout_before_failure
                  timeout_before_failure_reachable eq_refl) as (H1 & _ & H3).
    destruct (H3 Q) as [H4 _].
    destruct (H4 late_failure_rest late_failure_end H) as (_ & _ & H5 & _ & H6).
    split; [exact timeout_before_failure_reachable|].
    split; [reflexivity|]. split; [reflexivity|].
    split; [exact Q|]. split; [exact H|]. split; [exact St|].
    split; [exact H1|]. split; [exact H5 | exact (H6 St)].
  - assert (Hi : In (Errorf (errorString "no luck") ErrTimeout)
                    (errChan late_failure_end ++ got (c_pc late_failure_end)))
      by (left; reflexivity).
    pose proof (late_failure_dropped picky_call Ignores late_failure_end
                  late_failure_end_reachable eq_refl) as (H1 & H2 & _).
    destruct (H2 eq_refl) as [H3 H4].
    split; [exact late_failure_end_reachable|].
    split; [reflexivity|]. split; [reflexivity|]. split; [reflexivity|].
    split; [left; reflexivity|]. split; [exact Hi|].
    split; [exact H1|]. split; [exact H3 | exact (H4 _ Hi)].
Defined.

(** C10. Once the deadline has reported [timeout] for a call whose
    operation was started, no [success] is ever reported for it; the result
    channel gets at most one error over the whole call, and that error is
    the resolution of [ErrTimeout]. *)
Theorem late_success_dropped (p : command) (w : caller) (s : state) :
  reachable p (Go p w) s -> reported "timeout" s = true -> runCalls s = 1 ->
  reported "success" s = false
  /\ length (errChan s ++ got (c_pc s)) <= 1
  /\ forall err, In err (errChan s ++ got (c_pc s)) ->
                 resolution p ErrTimeout = Some err.
Proof.
  intros R T N.
  destruct (reachable_cases p w s R) as [I|(err & _ & _ & H & _)];
    [|unfold reported in T; rewrite H in T; discriminate].
  destruct (timeout_alone p s I T) as (Hf & Hs & Hc).
  assert (Hn : runCalls s <> 0) by lia.
  destruct (ran_not_rejected p s I Hn) as (Hr & _).
  repeat split.
  - exact Hs.
  - pose proof (outcome_length p s (inv_once _ _ I)).
    pose proof (delivered_length s); lia.
  - intros err Hi; apply delivered_outcome in Hi.
    destruct (onceDone s) eqn:D.
    + destruct (oi_done _ _ (inv_once _ _ I) D) as (cause & Hk & Ho & _).
      rewrite Ho in Hi.
      assert (Hcause : cause = ErrTimeout)
        by (destruct Hk as [[_ H]|[[_ H]|[[H _]|[_ H]]]]; congruence).
      subst cause.
      destruct (resolution p ErrTimeout); simpl in Hi; [|contradiction].
      destruct Hi as [->|[]]; reflexivity.
    + rewrite (oi_open _ _ (inv_once _ _ I) D) in Hi; contradiction.
Qed.

Lemma timed_out_end_reachable :
  reachable good_call (Go good_call Ignores) timed_out_end.
Proof.
  apply exec_reachable with (sched := timer_first 10); reflexivity.
Qed.

Lemma late_success_dropped_witness :
  reachable good_call (Go good_call Ignores) timed_out_end
  /\ reported "timeout" timed_out_end = true
  /\ runCalls timed_out_end = 1
  /\ In ErrTimeout (errChan timed_out_end ++ got (c_pc timed_out_end))
  /\ reported "success" timed_out_end = false
  /\ resolution good_call ErrTimeout = Some ErrTimeout.
Proof.
  split; [exact timed_out_end_reachable|].
  split; [reflexivity|split; [reflexivity|split; [left; reflexivity|]]].
  pose proof (late_success_dropped good_call Ignores timed_out_end
                timed_out_end_reachable eq_refl eq_refl) as (H1 & _ & H3).
  split; [exact H1 | exact (H3 ErrTimeout (or_introl eq_refl))].
Defined.

(** ** The ticket goes back *)

(** C9. When the lookup of the circuit succeeds, the deadline calls
    [executorPool.Return] exactly once before it exits, with the value the
    variable [ticket] has at that moment: nil if no ticket has been
    acquired by then, and so always nil when the circuit is open or the
    pool is empty.  With closures that never wait, the deadline has exited
    in every complete execution. *)
Theorem deadline_returns_once (p : command) (w : caller) (s : state) :
  GetCircuit p = None -> reachable p (Go p w) s ->
  length (returned s) <= 1
  /\ (d_pc s = D_exit ->
      exists r, returned s = [r]
                /\ (r = None \/ r = ticket s)
                /\ (AllowRequest p = false -> r = None)
                /\ (Tickets p = None -> r = None))
  /\ (silent p -> stuck p s -> d_pc s = D_exit).
Proof.
  intros E R.
  pose proof (inv_reachable p w s E R) as I.
  destruct (inv_exit _ _ I) as [_ _ _ _ X0 X1].
  pose proof (pi_ticket _ _ (inv_path _ _ I)) as T.
  repeat split.
  - destruct (d_returned (d_pc s)).
    + specialize (X1 eq_refl).
      destruct (returned s) as [|r [|r' l]]; simpl; try lia; contradiction.
    + rewrite (X0 eq_refl); simpl; lia.
  - intros D; rewrite D in X1; specialize (X1 eq_refl).
    destruct (returned s) as [|r [|r' l]]; try contradiction.
    exists r; repeat split; [exact X1| |].
    + intros A; destruct X1 as [X1|X1]; [exact X1|].
      destruct r as [tk|]; [|reflexivity].
      destruct T as [_ T]; congruence.
    + intros K; destruct X1 as [X1|X1]; [exact X1|].
      destruct r as [tk|]; [|reflexivity].
      destruct T as [T _]; congruence.
  - intros Q St.
    exact (proj2 (stuck_exited p s I (silent_send_ok p s Q I) St)).
Qed.

Lemma closed_end_reachable :
  reachable closed_call (Go closed_call Ignores) closed_end.
Proof.
  apply exec_reachable with (sched := worker_first 12); reflexivity.
Qed.

Lemma deadline_returns_once_witness :
  GetCircuit closed_call = None
  /\ reachable closed_call (Go closed_call Ignores) closed_end
  /\ d_pc closed_end = D_exit
  /\ silent closed_call
  /\ stuck closed_call closed_end
  /\ length (returned closed_end) <= 1
  /\ exists r, returned closed_end = [r]
               /\ (r = None \/ r = ticket closed_end) /\ r = None /\ r = None.
Proof.
  assert (St : stuck closed_call closed_end) by (intros [|[]|[]]; reflexivity).
  split; [reflexivity|split; [exact closed_end_reachable|]].
  split; [reflexivity|split; [apply Go_command_silent|split; [exact St|]]].
  pose proof (deadline_returns_once closed_call Ignores closed_end eq_refl
                closed_end_reachable) as (H1 & H2 & H3).
  split; [exact H1|].
  pose proof (H3 (Go_command_silent _ _ _) St) as D.
  destruct (H2 D) as (r & Hr & Ht & Ha & Hk).
  exists r; repeat split; [exact Hr | exact Ht | exact (Ha eq_refl) | exact (Hk eq_refl)].
Defined.

(** ** Admission *)

(** Without admission there is no ticket and no call of the operation. *)
Lemma no_ticket_no_run (p : command) (s : state) :
  inv p s -> AllowRequest p = false \/ Tickets p = None ->
  ticket s = None /\ runCalls s = 0.
Proof.
  intros I H.
  pose proof (pi_ticket _ _ (inv_path _ _ I)) as P7.
  pose proof (pi_ran _ _ (inv_path _ _ I)) as P11.
  assert (Ht : ticket s = None).
  { destruct (ticket s) as [t|]; [exfalso|reflexivity].
    destruct P7 as [K A]; [discriminate|].
    destruct H; congruence. }
  split; [exact Ht|].
  destruct (runCalls s); [reflexivity|exfalso].
  apply P11; [discriminate | exact Ht].
Qed.

(** The circuit is open and the timer fires first: the worker finds [stop]
    set and leaves without a report. *)
Lemma open_circuit_not_reported :
  exists s,
    exec open_call (timer_first 5) (Go open_call Ignores) = Some s
    /\ exited s
    /\ AllowRequest open_call = false
    /\ reported "short-circuit" s = false
    /\ events s = [("timeout", 0%Z)]
    /\ errChan s = [ErrTimeout].
Proof.
  eexists; split; [vm_compute; reflexivity|].
  repeat split; reflexivity.
Qed.

(** C7, amended. When [AllowRequest] returns false the worker acquires no
    ticket and never runs the operation; it reports [short-circuit] and
    resolves the call with [ErrCircuitOpen], unless the deadline has
    resolved it first, as timed out, and then the worker reports nothing.
    Otherwise, when the pool has no ticket, the worker never runs the
    operation either; it reports [rejected] and then makes the call of
    [tryFallback] with [ErrMaxConcurrency] of line 92, which resolves the
    call with [ErrMaxConcurrency] whenever no timeout is reported for
    it. *)
Theorem worker_admission (p : command) (w : caller) (s : state) :
  GetCircuit p = None -> reachable p (Go p w) s ->
  (AllowRequest p = false ->
   ticket s = None /\ runCalls s = 0
   /\ (exited s ->
       (reported "short-circuit" s = true /\ reported "timeout" s = false
        /\ resolved p s ErrCircuitOpen)
       \/ (reported "timeout" s = true /\ reported "short-circuit" s = false
           /\ resolved p s ErrTimeout)))
  /\ (AllowRequest p = true -> Tickets p = None ->
      ticket s = None /\ runCalls s = 0
      /\ (w_pc s = W_exit ->
          reported "rejected" s = true
          /\ (exists t, reachable p (Go p w) t /\ reachable p t s
                        /\ w_pc t = W92 T198
                        /\ reported "rejected" t = true /\ runCalls t = 0)
          /\ (reported "timeout" s = false ->
              resolved p s ErrMaxConcurrency))).
Proof.
  intros E R.
  pose proof (inv_reachable p w s E R) as I.
  destruct (inv_path _ _ I) as
    [_ _ _ _ _ _ P7 _ _ _ P11 P12 P13 P14 P15 _ _ _ _].
  destruct (inv_once _ _ I) as [_ _ _ _ O5 _ _ O8 O9].
  destruct (inv_stop _ _ I) as [_ _ _ _ S5 _ _ _ _ _].
  split.
  - intros A.
    destruct (no_ticket_no_run p s I) as [Ht Hr]; [auto|].
    split; [exact Ht|split; [exact Hr|]].
    intros X; pose proof X as [Xw Xd].
    assert (Hf : reported "failure" s = false)
      by (destruct (reported "failure" s); [destruct (P14 eq_refl); lia | reflexivity]).
    assert (Hs : reported "success" s = false)
      by (destruct (reported "success" s); [specialize (P15 eq_refl); lia | reflexivity]).
    assert (Hj : reported "rejected" s = false)
      by (destruct (reported "rejected" s); [destruct (P13 eq_refl); congruence | reflexivity]).
    destruct (exited_resolved p s I X) as [D|[D _]]; [|congruence].
    destruct (O5 D) as (cause & Hk & Ho & Hc).
    unfold sc_active, to_active in S5; rewrite Xw, Xd in S5; simpl in S5.
    rewrite ?orb_false_r in S5.
    destruct Hk as [[-> H]|[[_ H]|[[-> H]|[_ H]]]]; try congruence.
    + left; rewrite H in *; simpl in S5.
      repeat split; auto; left; auto.
    + right; rewrite H in *; rewrite andb_true_r in S5.
      repeat split; auto; right; right; left; auto.
  - intros A K.
    destruct (no_ticket_no_run p s I) as [Ht Hr]; [auto|].
    split; [exact Ht|split; [exact Hr|]].
    intros Xw.
    pose proof (ei_w_rej _ _ (inv_exit _ _ I)) as X3.
    assert (Hp : w_past_92 (w_pc s) = true) by (rewrite Xw; reflexivity).
    pose proof (rejection_called p w s E R A K Hp) as C.
    rewrite Xw in *; simpl in *.
    specialize (X3 eq_refl A K).
    split; [exact X3|].
    split; [exact C|].
    intros T.
    rewrite X3 in O8; rewrite orb_true_r in O8; simpl in O8.
    destruct (O5 (O8 eq_refl eq_refl)) as (cause & Hk & Ho & Hc).
    assert (Hf : reported "failure" s = false)
      by (destruct (reported "failure" s); [destruct (P14 eq_refl); lia | reflexivity]).
    assert (Hs : reported "short-circuit" s = false)
      by (destruct (reported "short-circuit" s); [specialize (P12 eq_refl); congruence | reflexivity]).
    destruct Hk as [[_ H]|[[-> H]|[[_ H]|[_ H]]]]; try congruence.
    repeat split; auto; right; left; auto.
Qed.

Lemma open_end_reachable : reachable open_call (Go open_call Ignores) open_end.
Proof.
  apply exec_reachable with (sched := worker_first 12); reflexivity.
Qed.

Lemma rejected_end_reachable :
  reachable rejected_call (Go rejected_call Ignores) rejected_end.
Proof.
  apply exec_reachable with (sched := worker_first 11); reflexivity.
Qed.

Lemma worker_admission_witness :
  (GetCircuit open_call = None
   /\ reachable open_call (Go open_call Ignores) open_end
   /\ AllowRequest open_call = false /\ exited open_end
   /\ ticket open_end = None /\ runCalls open_end = 0
   /\ ((reported "short-circuit" open_end = true
        /\ reported "timeout" open_end = false
        /\ resolved open_call open_end ErrCircuitOpen)
       \/ (reported "timeout" open_end = true
           /\ reported "short-circuit" open_end = false
           /\ resolved open_call open_end ErrTimeout)))
  /\ (GetCircuit rejected_call = None
      /\ reachable rejected_call (Go rejected_call Ignores) rejected_end
      /\ AllowRequest rejected_call = true /\ Tickets rejected_call = None
      /\ w_pc rejected_end = W_exit
      /\ reported "timeout" rejected_end = false
      /\ ticket rejected_end = None /\ runCalls rejected_end = 0
      /\ reported "rejected" rejected_end = true
      /\ (exists t, reachable rejected_call (Go rejected_call Ignores) t
                    /\ reachable rejected_call t rejected_end
                    /\ w_pc t = W92 T198
                    /\ reported "rejected" t = true /\ runCalls t = 0)
      /\ resolved rejected_call rejected_end ErrMaxConcurrency).
Proof.
  split.
  - split; [reflexivity|split; [exact open_end_reachable|]].
    split; [reflexivity|split; [split; reflexivity|]].
    pose proof (proj1 (worker_admission open_call Ignores open_end eq_refl
                         open_end_reachable) eq_refl) as (H1 & H2 & H3).
    split; [exact H1|split; [exact H2|]].
    apply H3; split; reflexivity.
  - split; [reflexivity|split; [exact rejected_end_reachable|]].
    split; [reflexivity|split; [reflexivity|split; [reflexivity|]]].
    split; [reflexivity|].
    pose proof (proj2 (worker_admission rejected_call Ignores rejected_end eq_refl
                         rejected_end_reachable) eq_refl eq_refl) as (H1 & H2 & H3).
    split; [exact H1|split; [exact H2|]].
    destruct (H3 eq_refl) as (H4 & H5 & H6).
    split; [exact H4|split; [exact H5 | exact (H6 eq_refl)]].
Defined.

(** ** Do *)

Lemma list_sum_pos {A : Type} (f : A -> nat) (l : list A) :
  1 <= list_sum (map f l) -> exists x, In x l /\ 1 <= f x.
Proof.
  induction l as [|a l IH]; simpl; [lia|].
  intros H; destruct (f a) eqn:E.
  - destruct (IH H) as (x & Hx & Hf); exists x; auto.
  - exists a; split; [auto | lia].
Qed.

(** C6. [Do] waits at its [select] while [done] and [errChan] are both
    empty; it returns nil only when the operation or the fallback has
    returned nil and signalled [done], and otherwise the error that a
    resolution has put on [errChan].  Every execution is finite, and in
    every complete one [Do] has returned.  When the operation always
    returns an error and the fallback always returns nil, [Do] can only
    return nil, it has done so in every complete execution, and the circuit
    has then received [fallback-success]. *)
Theorem Do_returns (e : circuit) (user_run : unit -> option error)
    (user_fallback : option (error -> option error)) (sched : list choice)
    (s : state) :
  let p := Do_command e user_run user_fallback in
  c_GetCircuit e = None -> exec p sched (Do p) = Some s ->
  length sched <= measure p (Do p)
  /\ (done s = [] -> errChan s = [] -> forall fromDone,
        step p (Caller fromDone) s = None)
  /\ (forall r, c_pc s = C_ret r ->
        match r with
        | None =>
            user_run tt = None
            \/ exists fb cause, user_fallback = Some fb
                 /\ In cause (fallbackCalls s) /\ fb cause = None
        | Some err => exists cause, cause_ok p s cause
                                    /\ resolution p cause = Some err
        end)
  /\ (stuck p s -> exited s /\ exists r, c_pc s = C_ret r)
  /\ ((forall x, user_run x <> None) ->
      (exists fb, user_fallback = Some fb /\ forall err, fb err = None) ->
      (forall r, c_pc s = C_ret r -> r = None)
      /\ (stuck p s ->
          c_pc s = C_ret None /\ reported "fallback-success" s = true)).
Proof.
  intros p E H.
  pose proof (exec_reachable p sched (Do p) s H) as R.
  assert (I : inv p s) by (exact (inv_reachable p Selects s E R)).
  assert (Q : signalling p) by apply Do_command_signalling.
  assert (C : c_pc s = C186 \/ exists r, c_pc s = C_ret r)
    by (exact (caller_reachable p Selects s R)).
  assert (G3 : forall r, c_pc s = C_ret r ->
        match r with
        | None =>
            user_run tt = None
            \/ exists fb cause, user_fallback = Some fb
                 /\ In cause (fallbackCalls s) /\ fb cause = None
        | Some err => exists cause, cause_ok p s cause
                                    /\ resolution p cause = Some err
        end).
  { intros [err|] Hc.
    - destruct (onceDone s) eqn:D.
      + destruct (oi_done _ _ (inv_once _ _ I) D) as (cause & Hk & Ho & _).
        exists cause; split; [exact Hk|].
        assert (Hi : In err (outcome s))
          by (unfold outcome; rewrite Hc, !in_app_iff; simpl; auto).
        rewrite Ho in Hi.
        destruct (resolution p cause); simpl in Hi; [|contradiction].
        destruct Hi as [->|[]]; reflexivity.
      + pose proof (oi_open _ _ (inv_once _ _ I) D) as O.
        unfold outcome in O; rewrite Hc in O.
        apply (f_equal (@length _)) in O; exfalso; list_arith.
    - pose proof (inv_done _ _ I) as D; unfold done_inv, called_sends in D.
      rewrite Hc in D; unfold taken in D.
      destruct (user_run tt) as [err|] eqn:Er; [right|left; reflexivity].
      assert (Z : sends (run p tt) = 0)
        by (simpl; unfold Do_r; rewrite Er; reflexivity).
      rewrite Z in D.
      assert (F : 1 <= list_sum (map (fb_sends p) (fallbackCalls s)))
        by (destruct (runCalls s); lia).
      destruct (list_sum_pos _ _ F) as (cause & Hi & Hf).
      unfold fb_sends in Hf; simpl in Hf.
      destruct user_fallback as [fb|]; simpl in Hf; [|lia].
      exists fb, cause; repeat split; auto.
      unfold Do_f in Hf; destruct (fb cause); [simpl in Hf; lia | reflexivity]. }
  assert (G4 : stuck p s -> exited s /\ exists r, c_pc s = C_ret r).
  { intros St.
    pose proof (stuck_exited p s I (signalling_send_ok p s Q I C) St) as X.
    split; [exact X|].
    destruct C as [C|C]; [exfalso|exact C].
    destruct (Do_answered p s Q I X C) as [N|N].
    - pose proof (St (Caller true)) as B; simpl in B.
      unfold caller_step in B; rewrite C in B.
      destruct (done s); [congruence | discriminate].
    - pose proof (St (Caller false)) as B; simpl in B.
      unfold caller_step in B; rewrite C in B.
      destruct (errChan s); [congruence | discriminate]. }
  split; [|split; [|split; [exact G3|split; [exact G4|]]]].
  - pose proof (exec_measure p sched (Do p) s H); lia.
  - intros Ed Ee b; simpl; unfold caller_step.
    rewrite Ed, Ee; destruct (c_pc s), b; reflexivity.
  - intros Hrun (fb & Hfb & Hnil).
    assert (N : forall cause, resolution p cause = None).
    { intros cause; unfold resolution; simpl; rewrite Hfb; simpl.
      unfold Do_f; rewrite Hnil; reflexivity. }
    assert (G5 : forall r, c_pc s = C_ret r -> r = None).
    { intros [err|] Hc; [exfalso|reflexivity].
      destruct (G3 _ Hc) as (cause & _ & Hr); rewrite N in Hr; discriminate. }
    split; [exact G5|].
    intros St; destruct (G4 St) as (X & r & Hc).
    split; [rewrite Hc, (G5 r Hc); reflexivity|].
    destruct (exited_resolved p s I X) as [D|[D1 D2]].
    + destruct (oi_done _ _ (inv_once _ _ I) D) as (cause & _ & _ & Hf).
      pose proof (inv_report _ _ I cause) as Rp.
      unfold calls_of in Hf; simpl in Hf; rewrite Hfb in Hf; simpl in Hf.
      rewrite D in Rp; simpl in Rp.
      specialize (Rp Hf eq_refl).
      unfold fallback_event in Rp; rewrite N in Rp; exact Rp.
    + exfalso.
      pose proof (pi_plain_ev _ _ (inv_path _ _ I) D1 D2) as Hp.
      simpl in Hp; unfold Do_r in Hp.
      destruct (user_run tt) eqn:Er; [discriminate | exact (Hrun tt Er)].
Qed.

Lemma Do_returns_witness :
  c_GetCircuit (answers true (Some 7)) = None
  /\ exec (Do_command (answers true (Some 7)) (fun _ => Some boom)
             (Some (fun _ => None)))
       do_schedule
       (Do (Do_command (answers true (Some 7)) (fun _ => Some boom)
              (Some (fun _ => None))))
     = Some do_end
  /\ stuck (Do_command (answers true (Some 7)) (fun _ => Some boom)
              (Some (fun _ => None))) do_end
  /\ length do_schedule <= 48
  /\ step (Do_command (answers true (Some 7)) (fun _ => Some boom)
             (Some (fun _ => None))) (Caller true) do_end = None
  /\ (exists fb cause, Some (fun _ : error => @None error) = Some fb
        /\ In cause (fallbackCalls do_end) /\ fb cause = None)
  /\ exited do_end
  /\ c_pc do_end = C_ret None
  /\ reported "fallback-success" do_end = true.
Proof.
  pose proof (Do_returns (answers true (Some 7)) (fun _ => Some boom)
                (Some (fun _ => None)) do_schedule do_end eq_refl eq_refl)
    as (H1 & H2 & H3 & H4 & H5).
  assert (St : stuck (Do_command (answers true (Some 7)) (fun _ => Some boom)
                        (Some (fun _ => None))) do_end)
    by (intros [|[]|[]]; reflexivity).
  split; [reflexivity|split; [reflexivity|split; [exact St|]]].
  split; [exact H1|].
  split; [exact (H2 eq_refl eq_refl true)|].
  split.
  - destruct (H3 None eq_refl) as [N|N]; [discriminate N | exact N].
  - split; [exact (proj1 (H4 St))|].
    apply H5; [discriminate | eexists; split; reflexivity | exact St].
Defined.

(** * Further properties *)

(** ** The ticket of a call that does not time out: the invariant *)

Lemma return_inv_Go (p : command) (w : caller) :
  GetCircuit p = None -> return_inv (Go p w).
Proof.
  intros E; unfold Go; rewrite E; constructor; simpl; auto; discriminate.
Qed.

Lemma return_inv_step (p : command) (c : choice) (s s' : state) :
  inv p s -> return_inv s -> step p c s = Some s' -> return_inv s'.
Proof.
  intros I [R1 R2 R3] H.
  pose proof (li_finished _ (inv_locks _ _ I)) as L8.
  pose proof (si_stop _ (inv_stop _ _ I)) as S3.
  pose proof (si_d_to _ (inv_stop _ _ I)) as S10.
  pose proof (pi_adm _ _ (inv_path _ _ I)) as P2.
  pose proof (pi_before _ _ (inv_path _ _ I)) as P8.
  pose proof (pi_ev_sc _ _ (inv_path _ _ I)) as P12.
  pose proof (pi_ev_fail _ _ (inv_path _ _ I)) as P14.
  pose proof (pi_ev_succ _ _ (inv_path _ _ I)) as P15.
  pose proof (ei_ret0 _ _ (inv_exit _ _ I)) as X5.
  clear I.
  unfold sc_active, run_active, to_active in S3.
  step_cases H.
  all: constructor; pc_rewrite.
  all: try assumption.
  all: events_norm.
  all: premises; try assumption; try congruence.
  - intros Hd Ht; exfalso.
    assert (Hp : d_past (d_pc s) = true) by (destruct (d_pc s); simpl in *; congruence).
    rewrite (R2 Hp) in Ht; discriminate.
  - intros He _; exfalso.
    destruct (w_pc s); simpl in *; try discriminate; specialize (L8 ltac:(discriminate)); discriminate.
  - intros He _.
    destruct (has_event "timeout" (events s)); [reflexivity|exfalso].
    destruct (has_event "failure" (events s));
      [destruct (P14 eq_refl) as [N _]; destruct (w_pc s); simpl in *; try discriminate; specialize (P8 eq_refl); congruence|].
    destruct (has_event "success" (events s));
      [specialize (P15 eq_refl); destruct (w_pc s); simpl in *; try discriminate; specialize (P8 eq_refl); congruence|].
    destruct (has_event "short-circuit" (events s));
      [specialize (P12 eq_refl); destruct (w_pc s); simpl in *; try discriminate;
       first [specialize (R1 eq_refl); discriminate | specialize (P2 eq_refl); congruence]|].
    destruct (w_pc s); simpl in *; discriminate.
  - intros _ _; rewrite X5; reflexivity.
Qed.

Lemma return_reachable (p : command) (w : caller) (s : state) :
  GetCircuit p = None -> reachable p (Go p w) s -> inv p s /\ return_inv s.
Proof.
  intros E R; induction R as [|s c s' R [I IH] H].
  - split; [apply inv_Go, E | apply return_inv_Go, E].
  - split; [exact (inv_step p c s s' I H) | exact (return_inv_step p c s s' I IH H)].
Qed.

(** ** The fallback's events: the invariant *)

Lemma fallback_inv_Go (p : command) (w : caller) : fallback_inv p (Go p w).
Proof.
  unfold Go; constructor; simpl; discriminate.
Qed.

Lemma fallback_inv_step (p : command) (c : choice) (s s' : state) :
  inv p s -> fallback_inv p s -> step p c s = Some s' -> fallback_inv p s'.
Proof.
  intros I [F1 F2] H.
  pose proof (oi_w _ _ (inv_once _ _ I)) as O3.
  pose proof (oi_d _ _ (inv_once _ _ I)) as O4.
  pose proof (pi_w_ok _ _ (inv_path _ _ I)) as P1.
  pose proof (pi_d_ok _ _ (inv_path _ _ I)) as P2.
  clear I.
  step_cases H.
  all: constructor; pc_rewrite.
  all: try assumption.
  all: events_norm.
  all: premises; try assumption; try congruence.
  all: use_calls.
  all: try solve [intros Hr;
                  first [destruct (F1 Hr) as (c0 & Hc & _) | destruct (F2 Hr) as (c0 & Hc & _)];
                  congruence].
  all: intros _.
  all: repeat match goal with H : _ /\ _ |- _ => destruct H end.
  all: unfold calls_of, resolution in *.
  all: destruct (fallback p) as [f|]; simpl in *; try discriminate.
  all: eexists; split; [eassumption|].
  all: match goal with
       | H : Some (result _) = Some _ |- _ => injection H as H; rewrite H
       end.
  all: congruence.
Qed.

Lemma fallback_reachable (p : command) (w : caller) (s : state) :
  GetCircuit p = None -> reachable p (Go p w) s -> inv p s /\ fallback_inv p s.
Proof.
  intros E R; induction R as [|s c s' R [I IH] H].
  - split; [apply inv_Go, E | apply fallback_inv_Go].
  - split; [exact (inv_step p c s s' I H) | exact (fallback_inv_step p c s s' I IH H)].
Qed.

(** ** Reachable examples *)

Lemma locks_reachable (p : command) (w : caller) (s : state) :
  reachable p (Go p w) s -> locks_inv s.
Proof.
  induction 1 as [|s c s' R IH H]; [apply locks_inv_Go|].
  exact (locks_inv_step p c s s' IH H).
Qed.

Lemma failing_end_reachable :
  reachable failing_call (Go failing_call Ignores) failing_end.
Proof.
  apply exec_reachable with (sched := worker_first 19); reflexivity.
Qed.

Lemma hopeless_end_reachable :
  reachable hopeless_call (Go hopeless_call Ignores) hopeless_end.
Proof.
  apply exec_reachable with (sched := worker_first 19); reflexivity.
Qed.

Lemma lost_end_reachable : reachable lost_call (Do lost_call) lost_end.
Proof.
  apply exec_reachable with (sched := [Caller false]); reflexivity.
Qed.

(** ** How often the closures are called *)

(** X1. In every state of every interleaving of a call, the fallback has
    been called at most once: the short-circuit, rejected, failure and
    timeout paths all go through the same [sync.Once]. *)
Theorem fallback_called_at_most_once (p : command) (w : caller) (s : state) :
  reachable p (Go p w) s -> length (fallbackCalls s) <= 1.
Proof.
  intros R.
  destruct (reachable_cases p w s R) as [I|(e & _ & _ & _ & _ & _ & F & _)].
  - exact (calls_length p s I).
  - rewrite F; simpl; lia.
Qed.

Lemma fallback_called_at_most_once_witness :
  reachable failing_call (Go failing_call Ignores) failing_end
  /\ length (fallbackCalls failing_end) <= 1.
Proof.
  split; [exact failing_end_reachable|].
  exact (fallback_called_at_most_once failing_call Ignores failing_end
           failing_end_reachable).
Defined.

(** X2. The operation is called at most once per call, never retried, and
    only in a call that found its circuit, was allowed by it and holds the
    ticket it took from the pool; such a call is never reported as
    [rejected] or [short-circuit]. *)
Theorem operation_runs_at_most_once (p : command) (w : caller) (s : state) :
  reachable p (Go p w) s ->
  runCalls s <= 1
  /\ (runCalls s <> 0 ->
      GetCircuit p = None /\ AllowRequest p = true
      /\ Tickets p <> None /\ ticket s = Tickets p
      /\ reported "rejected" s = false /\ reported "short-circuit" s = false).
Proof.
  intros R.
  destruct (GetCircuit p) as [err|] eqn:E.
  - destruct (lookup_failed p w err s E R) as (_ & _ & _ & N & _).
    rewrite N; split; [lia | congruence].
  - pose proof (inv_reachable p w s E R) as I.
    split; [exact (pi_calls _ _ (inv_path _ _ I))|].
    intros N; destruct (ran_not_rejected p s I N) as (A & B & C & D & F).
    auto 10.
Qed.

Lemma operation_runs_at_most_once_witness :
  reachable failing_call (Go failing_call Ignores) failing_end
  /\ runCalls failing_end <> 0
  /\ ticket failing_end = Tickets failing_call.
Proof.
  split; [exact failing_end_reachable|].
  split; [discriminate|].
  apply (operation_runs_at_most_once failing_call Ignores failing_end
           failing_end_reachable).
  discriminate.
Defined.

(** ** Which outcomes go together *)

(** X3. Of the outcomes that are decided under [stopMutex] (short-circuit,
    timeout, and failure or success of the operation) no two kinds are ever
    reported for one call, and a reported one means [stop] is set;
    [rejected] never comes with [short-circuit], [failure] or [success].
    The pairs left open are [timeout] with [rejected] and [failure] with
    [success]. *)
Theorem outcomes_exclusive (p : command) (w : caller) (s : state) :
  reachable p (Go p w) s ->
  reported "short-circuit" s && reported "timeout" s = false
  /\ reported "short-circuit" s && reported "rejected" s = false
  /\ reported "short-circuit" s
     && (reported "failure" s || reported "success" s) = false
  /\ reported "timeout" s
     && (reported "failure" s || reported "success" s) = false
  /\ reported "rejected" s
     && (reported "failure" s || reported "success" s) = false
  /\ (reported "short-circuit" s || reported "timeout" s
      || reported "failure" s || reported "success" s = true ->
      stop s = true).
Proof.
  intros R.
  destruct (reachable_cases p w s R) as [I|(e & _ & _ & Ev & _)].
  2: unfold reported; rewrite Ev; simpl; repeat split; discriminate.
  destruct (inv_stop _ _ I) as [_ _ S3 S4 S5 S6 _ _ _ _].
  destruct (inv_path _ _ I) as
    [_ _ _ _ _ _ P7 _ _ _ P11 P12 P13 P14 P15 _ _ _ _].
  unfold sc_active, run_active, to_active in *.
  assert (Rj : reported "rejected" s = true ->
               reported "short-circuit" s = false
               /\ reported "failure" s = false /\ reported "success" s = false).
  { intros Hr; destruct (P13 Hr) as [A T].
    assert (N : runCalls s = 0).
    { destruct (runCalls s) eqn:N; [reflexivity|exfalso].
      assert (Ht : ticket s <> None) by (apply P11; discriminate).
      destruct (P7 Ht); congruence. }
    repeat split.
    - destruct (reported "short-circuit" s); [|reflexivity].
      specialize (P12 eq_refl); congruence.
    - destruct (reported "failure" s); [|reflexivity].
      destruct (P14 eq_refl); congruence.
    - destruct (reported "success" s); [|reflexivity].
      specialize (P15 eq_refl); congruence. }
  destruct (reported "rejected" s);
    [destruct (Rj eq_refl) as (R1 & R2 & R3); rewrite R1, R2, R3 in * | clear Rj].
  all: destruct (reported "short-circuit" s), (reported "timeout" s),
         (reported "failure" s), (reported "success" s),
         (w_reports_sc (w_pc s)), (w_reports_run (w_pc s)),
         (d_reports_timeout (d_pc s)); simpl in *; try discriminate.
  all: repeat split; auto; intros; congruence.
Qed.

Lemma outcomes_exclusive_witness :
  reachable failing_call (Go failing_call Ignores) failing_end
  /\ reported "short-circuit" failing_end || reported "timeout" failing_end
     || reported "failure" failing_end || reported "success" failing_end = true
  /\ stop failing_end = true.
Proof.
  split; [exact failing_end_reachable|].
  split; [reflexivity|].
  apply (outcomes_exclusive failing_call Ignores failing_end
           failing_end_reachable).
  reflexivity.
Defined.

(** ** Both goroutines come to their end *)

Lemma silent_measure (p : command) (w : caller) :
  silent p -> measure p (Go p w) <= 44.
Proof.
  intros [Q1 Q2]; unfold measure, Go; simpl.
  assert (F : forall err, fb_sends p err = 0).
  { intros err; unfold fb_sends.
    destruct (fallback p) as [f|] eqn:E; [apply (Q2 f eq_refl)|reflexivity]. }
  destruct (GetCircuit p); simpl; [destruct w; simpl; lia|].
  rewrite Q1, !F; unfold run_rank.
  destruct (result (run p tt)); rewrite ?F; destruct w; simpl; lia.
Qed.

(** X4. A direct call of [Go] whose closures return: every execution is
    finite (at most 44 steps of the three goroutines), and when no step is
    left both goroutines of [Go] are over and [stopMutex], [ticketMutex] and
    the once are free, whether or not the caller ever receives from the
    result channel, and also when the lookup of the circuit fails. *)
Theorem Go_goroutines_finish (p : command) (w : caller) (sched : list choice)
    (s : state) :
  silent p -> exec p sched (Go p w) = Some s ->
  length sched <= 44
  /\ (stuck p s ->
      exited s /\ stopMutex s = false /\ ticketMutex s = false
      /\ onceM s = false).
Proof.
  intros Q H.
  pose proof (exec_reachable p sched _ _ H) as R.
  split.
  - pose proof (exec_measure p sched _ _ H).
    pose proof (silent_measure p w Q); lia.
  - intros St.
    assert (X : exited s).
    { destruct (reachable_cases p w s R) as [I|(e & _ & X & _)]; [|exact X].
      exact (stuck_exited p s I (silent_send_ok p s Q I) St). }
    split; [exact X|].
    destruct X as [Xw Xd].
    destruct (locks_reachable p w s R) as [L1 _ L3 _ L5 _ _ _].
    rewrite L1, L3, L5, Xw, Xd; simpl; auto.
Qed.

Lemma Go_goroutines_finish_witness :
  silent failing_call
  /\ exec failing_call (worker_first 19) (Go failing_call Ignores)
     = Some failing_end
  /\ stuck failing_call failing_end
  /\ exited failing_end.
Proof.
  assert (Q : silent failing_call) by apply Go_command_silent.
  assert (H : exec failing_call (worker_first 19) (Go failing_call Ignores)
              = Some failing_end) by reflexivity.
  assert (St : stuck failing_call failing_end) by (intros [|t|d]; reflexivity).
  split; [exact Q|]. split; [exact H|]. split; [exact St|].
  apply (Go_goroutines_finish failing_call Ignores (worker_first 19)
           failing_end Q H).
  exact St.
Defined.

(** ** What arrives on the result channel *)

(** X5. Every error that is buffered in the result channel or has been
    received from it (by a receiving caller or by the [select] of [Do]) is
    either the error of the failed lookup or what [tryFallback] makes of a
    cause that has been reported: [ErrCircuitOpen] after [short-circuit],
    [ErrMaxConcurrency] after [rejected], [ErrTimeout] after [timeout], the
    operation's error after [failure]; that is the cause itself without a
    fallback, the composite error when the fallback fails. *)
Theorem delivered_error_explained (p : command) (w : caller) (s : state)
    (err : error) :
  reachable p (Go p w) s -> In err (errChan s ++ got (c_pc s)) ->
  GetCircuit p = Some err
  \/ (GetCircuit p = None
      /\ exists cause, cause_ok p s cause /\ resolution p cause = Some err).
Proof.
  intros R Hi.
  destruct (GetCircuit p) as [e|] eqn:E.
  - destruct (lookup_failed p w e s E R) as (_ & _ & _ & _ & _ & _ & D).
    rewrite D in Hi; destruct Hi as [->|[]]; left; reflexivity.
  - right; split; [reflexivity|].
    pose proof (inv_reachable p w s E R) as I.
    apply delivered_outcome in Hi.
    destruct (inv_once _ _ I) as [O1 _ _ _ O5 _ _ _ _].
    destruct (onceDone s).
    + destruct (O5 eq_refl) as (cause & Hc & Ho & _).
      exists cause; split; [exact Hc|].
      rewrite Ho in Hi; destruct (resolution p cause); simpl in Hi.
      * destruct Hi as [->|[]]; reflexivity.
      * destruct Hi.
    + rewrite (O1 eq_refl) in Hi; destruct Hi.
Qed.

Lemma delivered_error_explained_witness :
  reachable hopeless_call (Go hopeless_call Ignores) hopeless_end
  /\ In (Errorf (errorString "no luck") boom)
        (errChan hopeless_end ++ got (c_pc hopeless_end))
  /\ (GetCircuit hopeless_call = Some (Errorf (errorString "no luck") boom)
      \/ (GetCircuit hopeless_call = None
          /\ exists cause, cause_ok hopeless_call hopeless_end cause
               /\ resolution hopeless_call cause
                  = Some (Errorf (errorString "no luck") boom))).
Proof.
  assert (Hi : In (Errorf (errorString "no luck") boom)
                  (errChan hopeless_end ++ got (c_pc hopeless_end)))
    by (left; reflexivity).
  split; [exact hopeless_end_reachable|].
  split; [exact Hi|].
  exact (delivered_error_explained hopeless_call Ignores hopeless_end _
           hopeless_end_reachable Hi).
Defined.

(** ** What the fallback is called with *)

(** X6. The fallback is only ever called with [ErrCircuitOpen],
    [ErrMaxConcurrency], [ErrTimeout] or the error the operation returned,
    and only after the matching event ([short-circuit], [rejected],
    [timeout], [failure]) has been reported to the circuit. *)
Theorem fallback_called_with_reported_cause (p : command) (w : caller)
    (s : state) (cause : error) :
  reachable p (Go p w) s -> In cause (fallbackCalls s) ->
  fallback p <> None /\ cause_ok p s cause.
Proof.
  intros R Hi.
  destruct (reachable_cases p w s R) as [I|(e & _ & _ & _ & _ & _ & F & _)].
  2: rewrite F in Hi; destruct Hi.
  destruct (inv_once _ _ I) as [_ O2 O3 O4 O5 _ _ _ _].
  destruct (inv_stop _ _ I) as [_ _ _ _ _ _ S7 S8 S9 S10].
  pose proof (pi_w_ok _ _ (inv_path _ _ I)) as W.
  destruct (onceDone s) eqn:E.
  - destruct (O5 eq_refl) as (c & Hc & _ & Hf).
    rewrite Hf in Hi; unfold calls_of in Hi.
    destruct (fallback p); [|destruct Hi].
    destruct Hi as [<-|[]]; split; [discriminate|exact Hc].
  - destruct (onceM s) eqn:M.
    2: rewrite (O2 eq_refl eq_refl) in Hi; destruct Hi.
    rewrite (li_once _ (inv_locks _ _ I)) in M.
    apply orb_true_iff in M; destruct M as [M|M].
    + destruct (in_once_calls p _ _ M (w_cause_tf _ M)) as (l & Hl & _).
      rewrite (O3 l Hl) in Hi.
      destruct (calls_in_cause p _ _ l cause Hl Hi) as [Hc Hf].
      split; [exact Hf|]; unfold cause_ok.
      destruct (w_pc s); simpl in *; try discriminate;
        injection Hc as <-.
      * left; auto.
      * right; left; auto.
      * right; right; right; split; [apply W | auto].
    + destruct (in_once_calls p _ _ M (d_cause_tf _ M)) as (l & Hl & _).
      rewrite (O4 l Hl) in Hi.
      destruct (calls_in_cause p _ _ l cause Hl Hi) as [Hc Hf].
      split; [exact Hf|]; unfold cause_ok.
      destruct (d_pc s); simpl in *; try discriminate;
        injection Hc as <-.
      right; right; left; auto.
Qed.

Lemma fallback_called_with_reported_cause_witness :
  reachable failing_call (Go failing_call Ignores) failing_end
  /\ In boom (fallbackCalls failing_end)
  /\ cause_ok failing_call failing_end boom.
Proof.
  assert (Hi : In boom (fallbackCalls failing_end)) by (left; reflexivity).
  split; [exact failing_end_reachable|].
  split; [exact Hi|].
  apply (fallback_called_with_reported_cause failing_call Ignores failing_end
           boom failing_end_reachable Hi).
Defined.

(** ** A lookup that fails *)

Lemma lookup_failed_caller (p : command) (w : caller) (err : error) (s : state) :
  GetCircuit p = Some err -> reachable p (Go p w) s ->
  (c_pc s = c_start w /\ errChan s = [err])
  \/ (c_pc s = C_ret (Some err) /\ errChan s = []).
Proof.
  intros E R; induction R as [|s c s' R IH H].
  - left; unfold Go; rewrite E; split; reflexivity.
  - destruct (lookup_failed p w err s E R) as ([Xw Xd] & _ & _ & _ & _ & D & _).
    step_cases H; simpl in *; try congruence.
    all: destruct IH as [[C Q]|[C Q]]; try congruence.
    all: right; split; congruence.
Qed.

(** X8. When [GetCircuit] fails, [Go] puts that error on the result
    channel and does nothing else: no goroutine runs, nothing is reported,
    neither closure is called and no ticket is returned to the pool; the
    error is the only value the channel ever carries, and [Do] returns
    it. *)
Theorem failed_lookup_only_delivers (p : command) (w : caller) (err : error)
    (s : state) :
  GetCircuit p = Some err -> reachable p (Go p w) s ->
  exited s /\ events s = [] /\ runCalls s = 0 /\ fallbackCalls s = []
  /\ returned s = [] /\ errChan s ++ got (c_pc s) = [err]
  /\ (w = Selects -> stuck p s -> c_pc s = C_ret (Some err)).
Proof.
  intros E R.
  destruct (lookup_failed p w err s E R) as (X & Ev & Rt & N & F & _ & D).
  repeat split; try assumption; try apply X.
  intros -> St.
  destruct (lookup_failed_caller p Selects err s E R) as [[C Q]|[C _]];
    [exfalso | exact C].
  specialize (St (Caller false)); unfold step, caller_step in St.
  simpl in C; rewrite C, Q in St; discriminate.
Qed.

Lemma failed_lookup_only_delivers_witness :
  GetCircuit lost_call = Some boom
  /\ reachable lost_call (Go lost_call Selects) lost_end
  /\ stuck lost_call lost_end
  /\ c_pc lost_end = C_ret (Some boom).
Proof.
  assert (St : stuck lost_call lost_end) by (intros [|t|d]; reflexivity).
  split; [reflexivity|].
  split; [exact lost_end_reachable|].
  split; [exact St|].
  apply (failed_lookup_only_delivers lost_call Selects boom lost_end eq_refl
           lost_end_reachable); [reflexivity | exact St].
Defined.

(** ** The ticket of a call that does not time out *)

(** X9. In a call that found its circuit and for which no [timeout] is
    reported, the deadline goroutine's one [Return] hands back exactly what
    the worker acquired: the ticket when it got one, nil when it got
    none. *)
Theorem ticket_returned_without_timeout (p : command) (w : caller) (s : state) :
  GetCircuit p = None -> reachable p (Go p w) s ->
  d_pc s = D_exit -> reported "timeout" s = false ->
  returned s = [ticket s].
Proof.
  intros E R Xd T.
  destruct (return_reachable p w s E R) as [_ [_ _ R3]].
  apply R3; [rewrite Xd; reflexivity | exact T].
Qed.

Lemma ticket_returned_without_timeout_witness :
  GetCircuit failing_call = None
  /\ reachable failing_call (Go failing_call Ignores) failing_end
  /\ d_pc failing_end = D_exit
  /\ reported "timeout" failing_end = false
  /\ returned failing_end = [ticket failing_end].
Proof.
  split; [reflexivity|].
  split; [exact failing_end_reachable|].
  split; [reflexivity|].
  split; [reflexivity|].
  exact (ticket_returned_without_timeout failing_call Ignores failing_end
           eq_refl failing_end_reachable eq_refl eq_refl).
Defined.

(** ** What the circuit is told *)

(** X10. When both goroutines of a call that found its circuit are over,
    the circuit has been told at least one of [short-circuit], [rejected],
    [timeout], [failure] and [success]: no call goes unreported. *)
Theorem complete_call_reports_outcome (p : command) (w : caller) (s : state) :
  GetCircuit p = None -> reachable p (Go p w) s -> exited s ->
  reported "short-circuit" s || reported "rejected" s || reported "timeout" s
  || reported "failure" s || reported "success" s = true.
Proof.
  intros E R [Xw Xd].
  pose proof (inv_reachable p w s E R) as I.
  pose proof (ei_w_left _ _ (inv_exit _ _ I)) as X1.
  pose proof (si_stop _ (inv_stop _ _ I)) as S3.
  unfold sc_active, run_active, to_active in S3.
  rewrite Xw, Xd in *; simpl in *.
  rewrite ?orb_false_r in S3.
  specialize (X1 eq_refl).
  destruct (reported "short-circuit" s), (reported "rejected" s),
    (reported "failure" s), (reported "timeout" s), (reported "success" s),
    (stop s); simpl in *; try discriminate; auto.
Qed.

Lemma complete_call_reports_outcome_witness :
  GetCircuit failing_call = None
  /\ reachable failing_call (Go failing_call Ignores) failing_end
  /\ exited failing_end
  /\ reported "short-circuit" failing_end || reported "rejected" failing_end
     || reported "timeout" failing_end || reported "failure" failing_end
     || reported "success" failing_end = true.
Proof.
  assert (X : exited failing_end) by (split; reflexivity).
  split; [reflexivity|].
  split; [exact failing_end_reachable|].
  split; [exact X|].
  exact (complete_call_reports_outcome failing_call Ignores failing_end
           eq_refl failing_end_reachable X).
Defined.

(** X11. [failure] is reported only after the operation was called and
    returned an error; [success] only after the operation was called, and
    then either it returned nil or [failure] was reported before. *)
Theorem run_reports_follow_the_operation (p : command) (w : caller) (s : state) :
  reachable p (Go p w) s ->
  (reported "failure" s = true ->
   runCalls s = 1 /\ result (run p tt) <> None)
  /\ (reported "success" s = true ->
      runCalls s = 1
      /\ (result (run p tt) = None \/ reported "failure" s = true)).
Proof.
  intros R.
  destruct (reachable_cases p w s R) as [I|(e & _ & _ & Ev & _)].
  2: unfold reported; rewrite Ev; simpl; split; discriminate.
  destruct (inv_path _ _ I) as
    [_ _ _ _ _ _ _ _ _ _ _ _ _ P14 P15 _ P17 _ _].
  split; [exact P14|].
  intros Hs; split; [exact (P15 Hs)|].
  destruct (reported "failure" s); [right; reflexivity|left].
  exact (P17 Hs eq_refl).
Qed.

Lemma run_reports_follow_the_operation_witness :
  reachable failing_call (Go failing_call Ignores) failing_end
  /\ reported "failure" failing_end = true
  /\ reported "success" failing_end = true
  /\ result (run failing_call tt) <> None
  /\ runCalls failing_end = 1.
Proof.
  pose proof (run_reports_follow_the_operation failing_call Ignores failing_end
                failing_end_reachable) as [F S].
  split; [exact failing_end_reachable|].
  split; [reflexivity|].
  split; [reflexivity|].
  split; [apply (F eq_refl) | apply (S eq_refl)].
Defined.

(** X12. A [fallback-success] or [fallback-failure] event in the log means
    that the fallback was called, once, and returned nil, respectively an
    error; and when both goroutines are over, a call of the fallback has
    left the event of its outcome in the log. *)
Theorem fallback_events_faithful (p : command) (w : caller) (s : state) :
  reachable p (Go p w) s ->
  (forall k, k = "fallback-success" \/ k = "fallback-failure" ->
             reported k s = true ->
             exists cause, fallbackCalls s = [cause]
                           /\ fallback_event p cause = k)
  /\ (exited s -> forall cause, fallbackCalls s = [cause] ->
                  reported (fallback_event p cause) s = true).
Proof.
  intros R.
  destruct (GetCircuit p) as [e|] eqn:E.
  - destruct (lookup_failed p w e s E R) as (_ & Ev & _ & _ & F & _).
    split.
    + intros k _; unfold reported; rewrite Ev; simpl; discriminate.
    + intros _ cause; rewrite F; discriminate.
  - destruct (fallback_reachable p w s E R) as [I [F1 F2]].
    split.
    + intros k [->| ->] Hr.
      * destruct (F1 Hr) as (cause & Hc & Hn).
        exists cause; split; [exact Hc|].
        unfold fallback_event; rewrite Hn; reflexivity.
      * destruct (F2 Hr) as (cause & Hc & Hn).
        exists cause; split; [exact Hc|].
        unfold fallback_event; destruct (resolution p cause); congruence.
    + intros [Xw Xd] cause Hc.
      apply (inv_report _ _ I cause Hc).
      destruct (inv_once _ _ I) as [_ O2 _ _ _ _ _ _ _].
      destruct (onceDone s); [reflexivity|exfalso].
      assert (M : onceM s = false).
      { rewrite (li_once _ (inv_locks _ _ I)), Xw, Xd; reflexivity. }
      rewrite (O2 eq_refl M) in Hc; discriminate.
Qed.

Lemma fallback_events_faithful_witness :
  reachable failing_call (Go failing_call Ignores) failing_end
  /\ reported "fallback-success" failing_end = true
  /\ exited failing_end
  /\ fallbackCalls failing_end = [boom]
  /\ (exists cause, fallbackCalls failing_end = [cause]
                    /\ fallback_event failing_call cause = "fallback-success")
  /\ reported (fallback_event failing_call boom) failing_end = true.
Proof.
  pose proof (fallback_events_faithful failing_call Ignores failing_end
                failing_end_reachable) as [A B].
  assert (X : exited failing_end) by (split; reflexivity).
  split; [exact failing_end_reachable|].
  split; [reflexivity|].
  split; [exact X|].
  split; [reflexivity|].
  split; [exact (A "fallback-success" (or_introl eq_refl) eq_refl)|].
  exact (B X boom eq_refl).
Defined.

(** ** The shared variables *)

(** X13. Every step of a call that changes [stop] is made while
    [stopMutex] is held and sets it (it is never cleared); every step that
    changes [ticket], and the call of [Return], is made while [ticketMutex]
    is held. *)
Theorem writes_are_guarded (p : command) (w : caller) (c : choice)
    (s s' : state) :
  reachable p (Go p w) s -> step p c s = Some s' ->
  (stop s' = stop s \/ (stopMutex s = true /\ stop s' = true))
  /\ (ticket s' = ticket s \/ ticketMutex s = true)
  /\ (returned s' = returned s \/ ticketMutex s = true).
Proof.
  intros R H.
  destruct (locks_reachable p w s R) as [L1 _ L3 _ _ _ _ _].
  step_cases H; simpl.
  all: repeat split; try (left; congruence).
  all: right; rewrite ?L1, ?L3.
  all: repeat match goal with
              | E : w_pc _ = _ |- _ => rewrite E
              | E : d_pc _ = _ |- _ => rewrite E
              end; simpl; rewrite ?orb_true_r; auto.
Qed.

Lemma at_acquire_reachable :
  reachable failing_call (Go failing_call Ignores) at_acquire.
Proof.
  apply exec_reachable with (sched := repeat Worker 2); reflexivity.
Qed.

Lemma at_set_stop_reachable :
  reachable failing_call (Go failing_call Ignores) at_set_stop.
Proof.
  apply exec_reachable with (sched := repeat Worker 8); reflexivity.
Qed.

Lemma at_return_reachable :
  reachable failing_call (Go failing_call Ignores) at_return.
Proof.
  apply exec_reachable
    with (sched := repeat Worker 19 ++ repeat (Deadline false) 3).
  reflexivity.
Qed.

Lemma writes_are_guarded_witness :
  (* line 108: the worker sets stop *)
  (reachable failing_call (Go failing_call Ignores) at_set_stop
   /\ step failing_call Worker at_set_stop
      = Some (after failing_call [Worker] at_set_stop)
   /\ stop at_set_stop = false
   /\ stop (after failing_call [Worker] at_set_stop) = true
   /\ stopMutex at_set_stop = true)
  (* line 87: the worker takes the ticket *)
  /\ (reachable failing_call (Go failing_call Ignores) at_acquire
      /\ step failing_call Worker at_acquire
         = Some (after failing_call [Worker] at_acquire)
      /\ ticket at_acquire = None
      /\ ticket (after failing_call [Worker] at_acquire) = Some 7
      /\ ticketMutex at_acquire = true)
  (* line 125: the deadline returns the ticket *)
  /\ (reachable failing_call (Go failing_call Ignores) at_return
      /\ step failing_call (Deadline false) at_return
         = Some (after failing_call [Deadline false] at_return)
      /\ returned at_return = []
      /\ returned (after failing_call [Deadline false] at_return) = [Some 7]
      /\ ticketMutex at_return = true).
Proof.
  split; [|split].
  - split; [exact at_set_stop_reachable|].
    split; [reflexivity|]. split; [reflexivity|]. split; [reflexivity|].
    destruct (writes_are_guarded failing_call Ignores Worker at_set_stop _
                at_set_stop_reachable eq_refl) as ([H|[H _]] & _ & _);
      [discriminate H | exact H].
  - split; [exact at_acquire_reachable|].
    split; [reflexivity|]. split; [reflexivity|]. split; [reflexivity|].
    destruct (writes_are_guarded failing_call Ignores Worker at_acquire _
                at_acquire_reachable eq_refl) as (_ & [H|H] & _);
      [discriminate H | exact H].
  - split; [exact at_return_reachable|].
    split; [reflexivity|]. split; [reflexivity|]. split; [reflexivity|].
    destruct (writes_are_guarded failing_call Ignores (Deadline false)
                at_return _ at_return_reachable eq_refl) as (_ & _ & [H|H]);
      [discriminate H | exact H].
Defined.

(** ** The events a call can report *)

(** X7. Whatever the interleaving, the circuit only ever receives the
    seven event types of the package, with duration 0 for [short-circuit],
    [rejected] and [timeout], the measured duration for [failure] and
    [success], and one of the two for the fallback's events. *)
Theorem events_well_formed (p : command) (w : caller) (s : state) :
  reachable p (Go p w) s ->
  forall ev, In ev (events s) -> In ev (call_events p).
Proof.
  induction 1 as [|s c s' R IH H].
  - unfold Go; simpl; intros ev [].
  - step_cases H; simpl; try exact IH.
    all: unfold ReportEvent; simpl.
    all: intros ev Hi; apply in_app_iff in Hi; destruct Hi as [Hi|[<-|[]]];
      [exact (IH ev Hi)|].
    all: unfold call_events; simpl; auto 12.
Qed.

Lemma events_well_formed_witness :
  reachable failing_call (Go failing_call Ignores) failing_end
  /\ In ("fallback-success", 5%Z) (events failing_end)
  /\ In ("fallback-success", 5%Z) (call_events failing_call).
Proof.
  split; [exact failing_end_reachable|].
  split; [right; left; reflexivity|].
  apply (events_well_formed failing_call Ignores failing_end
           failing_end_reachable).
  right; left; reflexivity.
Defined.
